(** * Authors, magazines and articles: lib/classes/many_to_many.py

    A shallow embedding of the three classes [Article], [Author] and
    [Magazine] and of the two class-level registries [Article.all] and
    [Magazine.all], followed by the properties of the construction,
    assignment and query operations.

    Python objects have identity and mutable attributes, so every class has
    a heap (a list of attribute records, an object's reference being its
    index) and the registries hold references.  A method that can raise is
    a state transformer returning either a value or the exception together
    with the state at that point; a method that only reads is a function of
    the state. *)

From Stdlib Require Import ZArith Lia.
From stdpp Require Import base decidable option list strings.

(** ** Values *)

(** The objects that client code can hand to a constructor or a setter.
    [VAuthor r], [VMagazine r] and [VArticle r] are references to instances
    of the three classes; the other constructors stand for the builtin
    types that are not instances of any of them.  On this universe Python's
    [==] (identity for the three classes, which define no [__eq__]) is
    equality of values. *)
Inductive value : Type :=
  | VNone
  | VInt (z : Z)
  | VStr (s : string)
  | VAuthor (r : nat)
  | VMagazine (r : nat)
  | VArticle (r : nat).

#[global] Instance value_eq_dec : EqDecision value.
Proof. solve_decision. Defined.

(** [isinstance(v, Author)], [isinstance(v, Magazine)], [isinstance(v, str)]. *)
Definition isinstance_Author (v : value) : bool :=
  match v with VAuthor _ => true | _ => false end.

Definition isinstance_Magazine (v : value) : bool :=
  match v with VMagazine _ => true | _ => false end.

Definition isinstance_str (v : value) : bool :=
  match v with VStr _ => true | _ => false end.

(** ** Exceptions and results *)

Inductive exn : Type :=
  | Exception (msg : string)   (* raise Exception(msg), the validation error *)
  | TypeError                  (* len() of an object without a length *)
  | AttributeError             (* attribute read on an object of another class *)
  | ValueError                 (* max() of an empty dict *)
  | InvalidRef.                (* a reference outside its heap: cannot occur in Python *)

#[global] Instance exn_eq_dec : EqDecision exn.
Proof. solve_decision. Defined.

Inductive result (A : Type) : Type :=
  | Ok (a : A)
  | Raise (e : exn).
Arguments Ok {A} a.
Arguments Raise {A} e.

#[global] Instance result_ret : MRet result := λ A a, Ok a.
#[global] Instance result_bind : MBind result := λ A B f r,
  match r with Ok a => f a | Raise e => Raise e end.

Definition of_option {A} (e : exn) (o : option A) : result A :=
  match o with Some a => Ok a | None => Raise e end.

(** [len(v)] *)
Definition len (v : value) : result nat :=
  match v with VStr s => Ok (String.length s) | _ => Raise TypeError end.

(** ** Heaps and registries *)

(** The instance attributes [_name] of an Author, [_name] and [_category]
    of a Magazine, [_author], [_magazine] and [_title] of an Article. *)
Record AuthorObj : Type := { auth_name : value }.
Record MagazineObj : Type := { mag_name : value; mag_category : value }.
Record ArticleObj : Type :=
  { art_author : value; art_magazine : value; art_title : value }.

Record state : Type := {
  authors : list AuthorObj;        (* heap of Author instances *)
  magazines : list MagazineObj;    (* heap of Magazine instances *)
  articles : list ArticleObj;      (* heap of Article instances *)
  Article_all : list nat;          (* Article.all *)
  Magazine_all : list nat          (* Magazine.all *)
}.

(** Process start: [Article.all = []], [Magazine.all = []], no instance. *)
Definition initial : state :=
  {| authors := []; magazines := []; articles := [];
     Article_all := []; Magazine_all := [] |}.

(** ** Commands *)

Definition M (A : Type) : Type := state → result A * state.

#[global] Instance M_ret : MRet M := λ A a st, (Ok a, st).
#[global] Instance M_bind : MBind M := λ A B f c st,
  match c st with
  | (Ok a, st') => f a st'
  | (Raise e, st') => (Raise e, st')
  end.

Definition raise {A} (e : exn) : M A := λ st, (Raise e, st).

(** [if cond: raise Exception(msg)] *)
Definition raise_if (cond : bool) (msg : string) : M unit :=
  if cond then raise (Exception msg) else mret tt.

(** A computation that cannot change the state, run inside a command. *)
Definition lift {A} (r : result A) : M A := λ st, (r, st).

Definition new_Author (o : AuthorObj) : M nat := λ st,
  (Ok (length (authors st)),
   {| authors := authors st ++ [o]; magazines := magazines st;
      articles := articles st; Article_all := Article_all st;
      Magazine_all := Magazine_all st |}).

Definition new_Magazine (o : MagazineObj) : M nat := λ st,
  (Ok (length (magazines st)),
   {| authors := authors st; magazines := magazines st ++ [o];
      articles := articles st; Article_all := Article_all st;
      Magazine_all := Magazine_all st |}).

Definition new_Article (o : ArticleObj) : M nat := λ st,
  (Ok (length (articles st)),
   {| authors := authors st; magazines := magazines st;
      articles := articles st ++ [o]; Article_all := Article_all st;
      Magazine_all := Magazine_all st |}).

(** [Article.all.append(self)] and [Magazine.all.append(self)] *)
Definition Article_all_append (self : nat) : M unit := λ st,
  (Ok tt,
   {| authors := authors st; magazines := magazines st;
      articles := articles st; Article_all := Article_all st ++ [self];
      Magazine_all := Magazine_all st |}).

Definition Magazine_all_append (self : nat) : M unit := λ st,
  (Ok tt,
   {| authors := authors st; magazines := magazines st;
      articles := articles st; Article_all := Article_all st;
      Magazine_all := Magazine_all st ++ [self] |}).

(** Attribute reads and writes on an instance. *)
Definition get_Author (self : nat) (st : state) : result AuthorObj :=
  of_option InvalidRef (authors st !! self).

Definition get_Magazine (self : nat) (st : state) : result MagazineObj :=
  of_option InvalidRef (magazines st !! self).

Definition get_Article (self : nat) (st : state) : result ArticleObj :=
  of_option InvalidRef (articles st !! self).

Definition update_Magazine (self : nat) (f : MagazineObj → MagazineObj) : M unit :=
  λ st,
  match magazines st !! self with
  | Some o =>
      (Ok tt,
       {| authors := authors st; magazines := <[self := f o]> (magazines st);
          articles := articles st; Article_all := Article_all st;
          Magazine_all := Magazine_all st |})
  | None => (Raise InvalidRef, st)
  end.

Definition update_Article (self : nat) (f : ArticleObj → ArticleObj) : M unit :=
  λ st,
  match articles st !! self with
  | Some o =>
      (Ok tt,
       {| authors := authors st; magazines := magazines st;
          articles := <[self := f o]> (articles st);
          Article_all := Article_all st; Magazine_all := Magazine_all st |})
  | None => (Raise InvalidRef, st)
  end.

(** ** Comprehensions, dicts and max *)

(** [[x for x in l if p(x)]] where the condition reads attributes. *)
Fixpoint py_filter {A} (p : A → result bool) (l : list A) : result (list A) :=
  match l with
  | [] => Ok []
  | x :: l' =>
      b ← p x;
      r ← py_filter p l';
      mret (if b : bool then x :: r else r)
  end.

(** [[f(x) for x in l]] *)
Fixpoint py_map {A B} (f : A → result B) (l : list A) : result (list B) :=
  match l with
  | [] => Ok []
  | x :: l' => y ← f x; r ← py_map f l'; mret (y :: r)
  end.

(** A dict from objects to counts.  Python dicts keep their keys in
    insertion order, and assigning to a key that is present keeps its
    position. *)
Definition dict : Type := list (value * nat).

Fixpoint dict_get (d : dict) (k : value) (default : nat) : nat :=
  match d with
  | [] => default
  | (k', n) :: d' => if decide (k' = k) then n else dict_get d' k default
  end.

Fixpoint dict_set (d : dict) (k : value) (n : nat) : dict :=
  match d with
  | [] => [(k, n)]
  | (k', n') :: d' =>
      if decide (k' = k) then (k', n) :: d' else (k', n') :: dict_set d' k n
  end.

Definition dict_keys (d : dict) : list value := d.*1.

(** [max(it, key=key)]: the first element whose key is not exceeded later;
    the running maximum is replaced only by a strictly greater key. *)
Fixpoint max_from {A} (key : A → nat) (best : A) (l : list A) : A :=
  match l with
  | [] => best
  | x :: l' =>
      if (key best <? key x)%nat then max_from key x l' else max_from key best l'
  end.

Definition py_max {A} (key : A → nat) (l : list A) : result A :=
  match l with
  | [] => Raise ValueError
  | x :: l' => Ok (max_from key x l')
  end.

(** [list(set(l))]: the distinct elements of [l], in an order that depends
    on the hashes of the elements and is not specified. *)
Class SetOrder : Type := {
  list_set : list value → list value;
  list_set_perm : ∀ l, list_set l ≡ₚ remove_dups l
}.

(** [for x in l: s = body(s, x)] where the body reads attributes. *)
Fixpoint py_for {A S} (body : S → A → result S) (s : S) (l : list A) : result S :=
  match l with
  | [] => Ok s
  | x :: l' => s' ← body s x; py_for body s' l'
  end.

(** ** The classes

    [Author] comes last because its methods call those of the other two. *)

Module Article.

(** [Article(author, magazine, title)]: the value is the new instance.
    The instance is allocated once the checks have passed; an instance
    whose [__init__] raised is never seen by the caller. *)
Definition __init__ (author magazine title : value) : M nat :=
  raise_if (negb (isinstance_Author author))
    "Author must be an instance of Author";;
  raise_if (negb (isinstance_Magazine magazine))
    "Magazine must be an instance of Magazine";;
  raise_if (negb (isinstance_str title)) "Title must be a string";;
  n ← lift (len title);
  raise_if (negb ((5 <=? n)%nat && (n <=? 50)%nat))
    "Title must be between 5 and 50 characters";;
  self ← new_Article
    {| art_author := author; art_magazine := magazine; art_title := title |};
  Article_all_append self;;
  mret self.

Definition title (self : nat) (st : state) : result value :=
  o ← get_Article self st; mret (art_title o).

(** The setter's body is [pass]. *)
Definition set_title (self : nat) (v : value) : M unit := mret tt.

Definition author (self : nat) (st : state) : result value :=
  o ← get_Article self st; mret (art_author o).

Definition set_author (self : nat) (v : value) : M unit :=
  raise_if (negb (isinstance_Author v)) "Author must be an instance of Author";;
  update_Article self (λ o,
    {| art_author := v; art_magazine := art_magazine o;
       art_title := art_title o |}).

Definition magazine (self : nat) (st : state) : result value :=
  o ← get_Article self st; mret (art_magazine o).

Definition set_magazine (self : nat) (v : value) : M unit :=
  raise_if (negb (isinstance_Magazine v))
    "Magazine must be an instance of Magazine";;
  update_Article self (λ o,
    {| art_author := art_author o; art_magazine := v;
       art_title := art_title o |}).

End Article.

Module Magazine.

Definition __init__ (name category : value) : M nat :=
  raise_if (negb (isinstance_str name)) "Name must be a string";;
  n ← lift (len name);
  raise_if (negb ((2 <=? n)%nat && (n <=? 16)%nat))
    "Name must be between 2 and 16 characters";;
  raise_if (negb (isinstance_str category)) "Category must be a string";;
  c ← lift (len category);
  raise_if (c =? 0)%nat "Category must be longer than 0 characters";;
  self ← new_Magazine {| mag_name := name; mag_category := category |};
  Magazine_all_append self;;
  mret self.

Definition name (self : nat) (st : state) : result value :=
  o ← get_Magazine self st; mret (mag_name o).

(** [isinstance(value, str) and 2 <= len(value) <= 16]: [and] does not
    evaluate [len] of a non-string. *)
Definition name_ok (v : value) : bool :=
  match v with
  | VStr s => (2 <=? String.length s)%nat && (String.length s <=? 16)%nat
  | _ => false
  end.

Definition set_name (self : nat) (v : value) : M unit :=
  if name_ok v
  then update_Magazine self (λ o,
         {| mag_name := v; mag_category := mag_category o |})
  else mret tt.

Definition category (self : nat) (st : state) : result value :=
  o ← get_Magazine self st; mret (mag_category o).

(** [isinstance(value, str) and len(value) > 0] *)
Definition category_ok (v : value) : bool :=
  match v with
  | VStr s => (0 <? String.length s)%nat
  | _ => false
  end.

Definition set_category (self : nat) (v : value) : M unit :=
  if category_ok v
  then update_Magazine self (λ o,
         {| mag_name := mag_name o; mag_category := v |})
  else mret tt.

(** [[article for article in Article.all if article.magazine == self]] *)
Definition articles (self : nat) (st : state) : result (list nat) :=
  py_filter
    (λ article,
       m ← Article.magazine article st;
       mret (bool_decide (m = VMagazine self)))
    (Article_all st).

Definition contributors `{SetOrder} (self : nat) (st : state)
  : result (list value) :=
  arts ← articles self st;
  auths ← py_map (λ article, Article.author article st) arts;
  mret (list_set auths).

(** [None] of Python is [None] here; a list is [Some]. *)
Definition article_titles (self : nat) (st : state)
  : result (option (list value)) :=
  arts ← articles self st;
  if arts is [] then mret None
  else titles ← py_map (λ article, Article.title article st) arts;
       mret (Some titles).

Definition contributing_authors (self : nat) (st : state)
  : result (option (list value)) :=
  arts ← articles self st;
  author_counts ←
    py_for
      (λ (author_counts : dict) article,
         author ← Article.author article st;
         mret (dict_set author_counts author
                 (dict_get author_counts author 0 + 1)))
      [] arts;
  let result :=
    (filter (λ item : value * nat, 2 < item.2) author_counts).*1 in
  mret (if result is [] then None else Some result).

(** [max(magazine_counts, key=magazine_counts.get)] iterates over the keys
    of the dict, on which [get] returns the stored count. *)
Definition top_publisher (st : state) : result (option value) :=
  if Article_all st is [] then mret None
  else
    magazine_counts ←
      py_for
        (λ (magazine_counts : dict) article,
           magazine ← Article.magazine article st;
           mret (dict_set magazine_counts magazine
                   (dict_get magazine_counts magazine 0 + 1)))
        [] (Article_all st);
    m ← py_max (λ k, dict_get magazine_counts k 0) (dict_keys magazine_counts);
    mret (Some m).

End Magazine.

Module Author.

Definition __init__ (name : value) : M nat :=
  raise_if (negb (isinstance_str name)) "Name must be a string";;
  n ← lift (len name);
  raise_if (n =? 0)%nat "Name must be longer than 0 characters";;
  new_Author {| auth_name := name |}.

Definition name (self : nat) (st : state) : result value :=
  o ← get_Author self st; mret (auth_name o).

(** The setter's body is [pass]. *)
Definition set_name (self : nat) (v : value) : M unit := mret tt.

(** [[article for article in Article.all if article.author == self]] *)
Definition articles (self : nat) (st : state) : result (list nat) :=
  py_filter
    (λ article,
       a ← Article.author article st;
       mret (bool_decide (a = VAuthor self)))
    (Article_all st).

Definition magazines `{SetOrder} (self : nat) (st : state)
  : result (list value) :=
  arts ← articles self st;
  mags ← py_map (λ article, Article.magazine article st) arts;
  mret (list_set mags).

Definition add_article (self : nat) (magazine title : value) : M nat :=
  Article.__init__ (VAuthor self) magazine title.

(** [v.category]: only a Magazine has this property. *)
Definition category_of (v : value) (st : state) : result value :=
  match v with
  | VMagazine m => Magazine.category m st
  | _ => Raise AttributeError
  end.

Definition topic_areas `{SetOrder} (self : nat) (st : state)
  : result (option (list value)) :=
  arts ← articles self st;
  if arts is [] then mret None
  else
    cats ← py_map
      (λ article, m ← Article.magazine article st; category_of m st) arts;
    mret (Some (list_set cats)).

End Author.

(** ** Vocabulary of the properties *)

#[global] Instance result_eq_dec {A} `{EqDecision A} : EqDecision (result A).
Proof. solve_decision. Defined.

(** *** The arguments that the constructors accept *)

Definition title_ok (v : value) : bool :=
  match v with
  | VStr s => (5 <=? String.length s) && (String.length s <=? 50)
  | _ => false
  end.

Definition Article_args_ok (author magazine title : value) : bool :=
  isinstance_Author author && isinstance_Magazine magazine && title_ok title.

(** The state after a successful [Article(author, magazine, title)]. *)
Definition with_Article (st : state) (o : ArticleObj) : state :=
  {| authors := authors st; magazines := magazines st;
     articles := articles st ++ [o];
     Article_all := Article_all st ++ [length (articles st)];
     Magazine_all := Magazine_all st |}.

Definition Author_args_ok (name : value) : bool :=
  match name with
  | VStr s => negb (String.length s =? 0)
  | _ => false
  end.

Definition Magazine_args_ok (name category : value) : bool :=
  Magazine.name_ok name && Magazine.category_ok category.

Definition with_Author (st : state) (o : AuthorObj) : state :=
  {| authors := authors st ++ [o]; magazines := magazines st;
     articles := articles st; Article_all := Article_all st;
     Magazine_all := Magazine_all st |}.

Definition with_Magazine (st : state) (o : MagazineObj) : state :=
  {| authors := authors st; magazines := magazines st ++ [o];
     articles := articles st; Article_all := Article_all st;
     Magazine_all := Magazine_all st ++ [length (magazines st)] |}.

(** ** Well-formed states

    What the guards of the constructors and setters establish about the
    stored attributes, and the fact that a registry only holds references
    to instances that exist. *)

Definition Author_valid (o : AuthorObj) : Prop :=
  match auth_name o with VStr s => 0 < String.length s | _ => False end.

Definition Magazine_valid (o : MagazineObj) : Prop :=
  match mag_name o with
  | VStr n => 2 ≤ String.length n ≤ 16
  | _ => False
  end ∧
  match mag_category o with VStr c => 0 < String.length c | _ => False end.

Definition Article_valid (st : state) (o : ArticleObj) : Prop :=
  match art_author o with
  | VAuthor a => a < length (authors st)
  | _ => False
  end ∧
  match art_magazine o with
  | VMagazine m => m < length (magazines st)
  | _ => False
  end ∧
  match art_title o with
  | VStr s => 5 ≤ String.length s ≤ 50
  | _ => False
  end.

Definition wf (st : state) : Prop :=
  Forall (λ r, r < length (articles st)) (Article_all st) ∧
  Forall (λ r, r < length (magazines st)) (Magazine_all st) ∧
  Forall (Article_valid st) (articles st) ∧
  Forall Magazine_valid (magazines st) ∧
  Forall Author_valid (authors st).

#[global] Instance Author_valid_dec o : Decision (Author_valid o).
Proof. unfold Author_valid. destruct (auth_name o); apply _. Defined.

#[global] Instance Magazine_valid_dec o : Decision (Magazine_valid o).
Proof.
  unfold Magazine_valid. destruct (mag_name o), (mag_category o); apply _.
Defined.

#[global] Instance Article_valid_dec st o : Decision (Article_valid st o).
Proof.
  unfold Article_valid.
  destruct (art_author o), (art_magazine o), (art_title o); apply _.
Defined.

#[global] Instance wf_dec st : Decision (wf st).
Proof. unfold wf. apply _. Defined.

(** ** Client programs

    The calls that client code can make.  A reference that a client holds
    designates an existing instance. *)

Inductive call : Type :=
  | NewAuthor (name : value)
  | NewMagazine (name category : value)
  | NewArticle (author magazine title : value)
  | AddArticle (self : nat) (magazine title : value)
  | SetArticleTitle (self : nat) (v : value)
  | SetArticleAuthor (self : nat) (v : value)
  | SetArticleMagazine (self : nat) (v : value)
  | SetAuthorName (self : nat) (v : value)
  | SetMagazineName (self : nat) (v : value)
  | SetMagazineCategory (self : nat) (v : value).

Definition exec (c : call) : M unit :=
  match c with
  | NewAuthor name => Author.__init__ name;; mret tt
  | NewMagazine name category => Magazine.__init__ name category;; mret tt
  | NewArticle author magazine title =>
      Article.__init__ author magazine title;; mret tt
  | AddArticle self magazine title =>
      Author.add_article self magazine title;; mret tt
  | SetArticleTitle self v => Article.set_title self v
  | SetArticleAuthor self v => Article.set_author self v
  | SetArticleMagazine self v => Article.set_magazine self v
  | SetAuthorName self v => Author.set_name self v
  | SetMagazineName self v => Magazine.set_name self v
  | SetMagazineCategory self v => Magazine.set_category self v
  end.

Definition live (st : state) (v : value) : Prop :=
  match v with
  | VAuthor r => r < length (authors st)
  | VMagazine r => r < length (magazines st)
  | VArticle r => r < length (articles st)
  | _ => True
  end.

Definition call_live (st : state) (c : call) : Prop :=
  match c with
  | NewAuthor name => live st name
  | NewMagazine name category => live st name ∧ live st category
  | NewArticle author magazine title =>
      live st author ∧ live st magazine ∧ live st title
  | AddArticle self magazine title =>
      live st (VAuthor self) ∧ live st magazine ∧ live st title
  | SetArticleTitle self v | SetArticleAuthor self v
  | SetArticleMagazine self v => live st (VArticle self) ∧ live st v
  | SetAuthorName self v => live st (VAuthor self) ∧ live st v
  | SetMagazineName self v | SetMagazineCategory self v =>
      live st (VMagazine self) ∧ live st v
  end.

(** The state after a call, whether it returned or raised. *)
Inductive reachable : state → Prop :=
  | reachable_initial : reachable initial
  | reachable_call st c :
      reachable st → call_live st c → reachable (exec c st).2.

(** ** The registry as the queries read it *)

(** [article.author] and [article.magazine] of the article at [r]. *)
Definition author_of (st : state) (r : nat) : option value :=
  art_author <$> articles st !! r.

Definition magazine_of (st : state) (r : nat) : option value :=
  art_magazine <$> articles st !! r.

(** The registered articles of an author and of a magazine, in registry
    order. *)
Definition articles_by (st : state) (self : nat) : list nat :=
  filter (λ r, author_of st r = Some (VAuthor self)) (Article_all st).

Definition articles_in (st : state) (self : nat) : list nat :=
  filter (λ r, magazine_of st r = Some (VMagazine self)) (Article_all st).

(** The author of each article of a magazine, and the magazine of each
    registered article: one entry per article. *)
Definition authors_in (st : state) (self : nat) : list value :=
  omap (author_of st) (articles_in st self).

Definition magazines_in (st : state) : list value :=
  omap (magazine_of st) (Article_all st).

(** [article.magazine.category] of the article at [r]. *)
Definition category_at (st : state) (r : nat) : option value :=
  match magazine_of st r with
  | Some (VMagazine m) => mag_category <$> magazines st !! m
  | _ => None
  end.

(** How often [v] occurs in [l], and where it occurs first. *)
Definition occurrences (v : value) (l : list value) : nat :=
  length (filter (λ x, x = v) l).

Fixpoint index_of (v : value) (l : list value) : option nat :=
  match l with
  | [] => None
  | x :: l' => if decide (x = v) then Some 0 else S <$> index_of v l'
  end.

(** One round of a counting loop, [counts[k] = counts.get(k, 0) + 1], and
    the dict that the loop builds from the keys it meets. *)
Definition count_step (counts : dict) (k : value) : dict :=
  dict_set counts k (dict_get counts k 0 + 1).

Definition count_keys (keys : list value) : dict := foldl count_step [] keys.

(** [Magazine.top_publisher] as a function of the magazines of the
    registered articles. *)
Definition top_of (mags : list value) : result (option value) :=
  if mags is [] then Ok None
  else
    m ← py_max (λ k, dict_get (count_keys mags) k 0)
          (dict_keys (count_keys mags));
    mret (Some m).

(** ** Sample runs *)

(** The order of [remove_dups] is one possible order of [list(set(l))]. *)
Definition remove_dups_order : SetOrder :=
  {| list_set := remove_dups; list_set_perm := λ l, Permutation_refl _ |}.

(** [Author("Ann"); Magazine("Vogue", "Fashion"); Magazine("AD", "Design")] *)
Definition newsstand : state :=
  (exec (NewMagazine (VStr "AD") (VStr "Design"))
     (exec (NewMagazine (VStr "Vogue") (VStr "Fashion"))
        (exec (NewAuthor (VStr "Ann")) initial).2).2).2.

(** Three articles of Ann in Vogue and then one in AD. *)
Definition three_and_one : state :=
  (exec (NewArticle (VAuthor 0) (VMagazine 1) (VStr "Chairs"))
     (exec (NewArticle (VAuthor 0) (VMagazine 0) (VStr "Coats"))
        (exec (NewArticle (VAuthor 0) (VMagazine 0) (VStr "Shoes"))
           (exec (NewArticle (VAuthor 0) (VMagazine 0) (VStr "Gloves"))
              newsstand).2).2).2).2.

(** Two articles each, the first one in AD. *)
Definition two_and_two : state :=
  (exec (NewArticle (VAuthor 0) (VMagazine 1) (VStr "Tables"))
     (exec (NewArticle (VAuthor 0) (VMagazine 0) (VStr "Coats"))
        (exec (NewArticle (VAuthor 0) (VMagazine 0) (VStr "Shoes"))
           (exec (NewArticle (VAuthor 0) (VMagazine 1) (VStr "Chairs"))
              newsstand).2).2).2).2.

(** ** Client programs as sequences of calls *)

(** A program is a list of calls; a call that raises is caught by the
    client and the program goes on from the state at the raise. *)
Definition run (cs : list call) (st : state) : state :=
  foldl (λ s c, (exec c s).2) st cs.

(** The state after [self._author = v], [self._magazine = v] on an article
    and after [self._name = v], [self._category = v] on a magazine. *)
Definition set_Article (st : state) (self : nat) (o : ArticleObj) : state :=
  {| authors := authors st; magazines := magazines st;
     articles := <[self := o]> (articles st);
     Article_all := Article_all st; Magazine_all := Magazine_all st |}.

Definition set_Magazine (st : state) (self : nat) (o : MagazineObj) : state :=
  {| authors := authors st; magazines := <[self := o]> (magazines st);
     articles := articles st; Article_all := Article_all st;
     Magazine_all := Magazine_all st |}.

(** What a single call can do to the state. *)
Inductive effect (st : state) : state → Prop :=
  | effect_none : effect st st
  | effect_Author o : effect st (with_Author st o)
  | effect_Magazine o : effect st (with_Magazine st o)
  | effect_Article o : effect st (with_Article st o)
  | effect_set_Article self o o' :
      articles st !! self = Some o → art_title o' = art_title o →
      effect st (set_Article st self o')
  | effect_set_Magazine self o o' :
      magazines st !! self = Some o → effect st (set_Magazine st self o').

(** Both registries list the instances of their class in the order of
    construction, each one once. *)
Definition registered (st : state) : Prop :=
  Article_all st = seq 0 (length (articles st)) ∧
  Magazine_all st = seq 0 (length (magazines st)).

(** * Properties *)

#[local] Arguments Nat.leb : simpl never.
#[local] Arguments Nat.ltb : simpl never.
#[local] Arguments Nat.eqb : simpl never.
#[local] Arguments String.length : simpl never.

Ltac unmonad :=
  unfold Article.__init__, Magazine.__init__, Author.__init__,
    Author.add_article, Article.set_author, Article.set_magazine,
    Article.set_title, Author.set_name, Magazine.set_name,
    Magazine.set_category, raise_if, raise, lift,
    new_Article, new_Author, new_Magazine, Article_all_append,
    Magazine_all_append, update_Article, update_Magazine in *;
  unfold mbind, mret, M_bind, M_ret in *; simpl in *.

Lemma leb_range_true (lo hi n : nat) :
  (lo <=? n) && (n <=? hi) = true ↔ lo ≤ n ≤ hi.
Proof.
  rewrite andb_true_iff, !Nat.leb_le. tauto.
Qed.

Lemma leb_range_false (lo hi n : nat) :
  (lo <=? n) && (n <=? hi) = false ↔ ¬ (lo ≤ n ≤ hi).
Proof.
  rewrite <- leb_range_true. destruct ((lo <=? n) && (n <=? hi)); split;
    intros; congruence.
Qed.

Lemma Article_init_success author magazine title st :
  Article_args_ok author magazine title = true →
  Article.__init__ author magazine title st =
    (Ok (length (articles st)),
     with_Article st
       {| art_author := author; art_magazine := magazine;
          art_title := title |}).
Proof.
  unfold Article_args_ok, title_ok. intros H.
  apply andb_true_iff in H as [H Ht]. apply andb_true_iff in H as [Ha Hm].
  destruct author; try discriminate. destruct magazine; try discriminate.
  destruct title; try discriminate.
  unmonad. rewrite Ht. reflexivity.
Qed.

Lemma Article_init_failure author magazine title st :
  Article_args_ok author magazine title = false →
  ∃ msg, Article.__init__ author magazine title st = (Raise (Exception msg), st).
Proof.
  unfold Article_args_ok, title_ok. intros H.
  destruct author; unmonad; eauto;
    destruct magazine; unmonad; eauto;
    destruct title; unmonad; eauto.
  rewrite H. simpl. eauto.
Qed.

Lemma Author_init_success name st :
  Author_args_ok name = true →
  Author.__init__ name st =
    (Ok (length (authors st)), with_Author st {| auth_name := name |}).
Proof.
  destruct name as [| |n| | |]; try discriminate. simpl. intros H.
  unmonad. destruct (String.length n =? 0); [discriminate | reflexivity].
Qed.

Lemma Author_init_failure name st :
  Author_args_ok name = false →
  ∃ msg, Author.__init__ name st = (Raise (Exception msg), st).
Proof.
  destruct name as [| |n| | |]; unmonad; eauto. intros H.
  destruct (String.length n =? 0); [eauto | discriminate].
Qed.

Lemma Magazine_init_success name category st :
  Magazine_args_ok name category = true →
  Magazine.__init__ name category st =
    (Ok (length (magazines st)),
     with_Magazine st {| mag_name := name; mag_category := category |}).
Proof.
  unfold Magazine_args_ok. intros H. apply andb_true_iff in H as [Hn Hc].
  destruct name as [| |n| | |]; try discriminate.
  destruct category as [| |c| | |]; try discriminate.
  simpl in Hn, Hc. unmonad. rewrite Hn. simpl.
  apply Nat.ltb_lt in Hc.
  destruct (String.length c =? 0) eqn:E; [apply Nat.eqb_eq in E; lia |].
  reflexivity.
Qed.

Lemma Magazine_init_failure name category st :
  Magazine_args_ok name category = false →
  ∃ msg, Magazine.__init__ name category st = (Raise (Exception msg), st).
Proof.
  unfold Magazine_args_ok. intros H.
  destruct name as [| |n| | |]; unmonad; eauto.
  destruct ((2 <=? String.length n) && (String.length n <=? 16)) eqn:En;
    simpl in *; eauto.
  destruct category as [| |c| | |]; simpl; eauto.
  destruct (String.length c =? 0) eqn:E; simpl; eauto.
  apply Nat.eqb_neq in E. apply Nat.ltb_ge in H. lia.
Qed.

Lemma Article_valid_mono st st' o :
  length (authors st) ≤ length (authors st') →
  length (magazines st) ≤ length (magazines st') →
  Article_valid st o → Article_valid st' o.
Proof.
  unfold Article_valid. intros Ha Hm (H1 & H2 & H3).
  destruct (art_author o), (art_magazine o); try tauto.
  repeat split; [lia | lia | assumption].
Qed.

Lemma Article_args_valid st author magazine title :
  Article_args_ok author magazine title = true →
  live st author → live st magazine →
  Article_valid st
    {| art_author := author; art_magazine := magazine; art_title := title |}.
Proof.
  unfold Article_args_ok, title_ok, Article_valid. intros H Ha Hm.
  apply andb_true_iff in H as [H Ht]. apply andb_true_iff in H as [Ia Im].
  destruct author; try discriminate. destruct magazine; try discriminate.
  destruct title; try discriminate. simpl in *.
  apply leb_range_true in Ht. tauto.
Qed.

Lemma Magazine_args_valid name category :
  Magazine_args_ok name category = true ↔
  Magazine_valid {| mag_name := name; mag_category := category |}.
Proof.
  unfold Magazine_args_ok, Magazine_valid, Magazine.name_ok,
    Magazine.category_ok. simpl.
  rewrite andb_true_iff.
  destruct name, category; simpl;
    rewrite ?leb_range_true, ?Nat.ltb_lt; intuition congruence.
Qed.

Lemma Author_args_valid name :
  Author_args_ok name = true ↔ Author_valid {| auth_name := name |}.
Proof.
  unfold Author_args_ok, Author_valid. simpl.
  destruct name; simpl; try (split; [discriminate | tauto]).
  rewrite negb_true_iff, Nat.eqb_neq. lia.
Qed.

Lemma wf_with_Article st o :
  wf st → Article_valid st o → wf (with_Article st o).
Proof.
  intros (Hr & Hm & Ha & Hmv & Hav) Ho. unfold wf, with_Article. simpl.
  repeat split; try assumption.
  - apply Forall_app. split.
    + eapply Forall_impl; [exact Hr |]. intros r Hlt. simpl in Hlt.
      rewrite length_app. simpl. lia.
    + constructor; [| constructor]. rewrite length_app. simpl. lia.
  - apply Forall_app. split.
    + eapply Forall_impl; [exact Ha |]. intros o'.
      apply Article_valid_mono; simpl; lia.
    + constructor; [| constructor].
      revert Ho. apply Article_valid_mono; simpl; lia.
Qed.

Lemma wf_with_Magazine st o :
  wf st → Magazine_valid o → wf (with_Magazine st o).
Proof.
  intros (Hr & Hm & Ha & Hmv & Hav) Ho. unfold wf, with_Magazine. simpl.
  repeat split; try assumption.
  - apply Forall_app. split.
    + eapply Forall_impl; [exact Hm |]. intros r Hlt. simpl in Hlt.
      rewrite length_app. simpl. lia.
    + constructor; [| constructor]. rewrite length_app. simpl. lia.
  - eapply Forall_impl; [exact Ha |]. intros o'.
    apply Article_valid_mono; simpl; rewrite ?length_app; lia.
  - apply Forall_app. split; [assumption |]. constructor; [assumption | constructor].
Qed.

Lemma wf_with_Author st o :
  wf st → Author_valid o → wf (with_Author st o).
Proof.
  intros (Hr & Hm & Ha & Hmv & Hav) Ho. unfold wf, with_Author. simpl.
  repeat split; try assumption.
  - eapply Forall_impl; [exact Ha |]. intros o'.
    apply Article_valid_mono; simpl; rewrite ?length_app; lia.
  - apply Forall_app. split; [assumption |]. constructor; [assumption | constructor].
Qed.

Lemma wf_set_author st self v :
  wf st → live st v → wf (Article.set_author self v st).2.
Proof.
  intros Hwf Hv. unmonad.
  destruct v; simpl; try assumption.
  destruct (articles st !! self) as [o |] eqn:E; simpl; [| assumption].
  destruct Hwf as (Hr & Hm & Ha & Hmv & Hav).
  unfold wf. simpl. rewrite length_insert. repeat split; try assumption.
  apply Forall_insert; [exact Ha |].
  pose proof (Forall_lookup_1 _ _ _ _ Ha E) as (_ & H2 & H3).
  unfold Article_valid. simpl. auto.
Qed.

Lemma wf_set_magazine st self v :
  wf st → live st v → wf (Article.set_magazine self v st).2.
Proof.
  intros Hwf Hv. unmonad.
  destruct v; simpl; try assumption.
  destruct (articles st !! self) as [o |] eqn:E; simpl; [| assumption].
  destruct Hwf as (Hr & Hm & Ha & Hmv & Hav).
  unfold wf. simpl. rewrite length_insert. repeat split; try assumption.
  apply Forall_insert; [exact Ha |].
  pose proof (Forall_lookup_1 _ _ _ _ Ha E) as (H1 & _ & H3).
  unfold Article_valid. simpl. auto.
Qed.

Lemma name_ok_spec v :
  Magazine.name_ok v = true ↔ ∃ s, v = VStr s ∧ 2 ≤ String.length s ≤ 16.
Proof.
  destruct v; simpl; try (split; [discriminate | intros (? & ? & ?); discriminate]).
  rewrite leb_range_true. split; [eauto |].
  intros (? & [= <-] & ?). assumption.
Qed.

Lemma category_ok_spec v :
  Magazine.category_ok v = true ↔ ∃ s, v = VStr s ∧ 0 < String.length s.
Proof.
  destruct v; simpl; try (split; [discriminate | intros (? & ? & ?); discriminate]).
  rewrite Nat.ltb_lt. split; [eauto |].
  intros (? & [= <-] & ?). assumption.
Qed.

Lemma wf_set_name st self v : wf st → wf (Magazine.set_name self v st).2.
Proof.
  intros Hwf. unmonad.
  destruct (Magazine.name_ok v) eqn:Hv; simpl; [| assumption].
  destruct (magazines st !! self) as [o |] eqn:E; simpl; [| assumption].
  destruct Hwf as (Hr & Hm & Ha & Hmv & Hav).
  unfold wf. simpl. rewrite length_insert. repeat split; try assumption.
  { eapply Forall_impl; [exact Ha |]. intros o'.
    apply Article_valid_mono; simpl; rewrite ?length_insert; lia. }
  apply Forall_insert; [exact Hmv |].
  pose proof (Forall_lookup_1 _ _ _ _ Hmv E) as [_ H2].
  apply name_ok_spec in Hv as (s & -> & Hs).
  split; simpl; assumption.
Qed.

Lemma wf_set_category st self v :
  wf st → wf (Magazine.set_category self v st).2.
Proof.
  intros Hwf. unmonad.
  destruct (Magazine.category_ok v) eqn:Hv; simpl; [| assumption].
  destruct (magazines st !! self) as [o |] eqn:E; simpl; [| assumption].
  destruct Hwf as (Hr & Hm & Ha & Hmv & Hav).
  unfold wf. simpl. rewrite length_insert. repeat split; try assumption.
  { eapply Forall_impl; [exact Ha |]. intros o'.
    apply Article_valid_mono; simpl; rewrite ?length_insert; lia. }
  apply Forall_insert; [exact Hmv |].
  pose proof (Forall_lookup_1 _ _ _ _ Hmv E) as [H1 _].
  apply category_ok_spec in Hv as (s & -> & Hs).
  split; simpl; assumption.
Qed.

Lemma wf_Article_init st author magazine title :
  wf st → live st author → live st magazine →
  wf (Article.__init__ author magazine title st).2.
Proof.
  intros Hwf Ha Hm.
  destruct (Article_args_ok author magazine title) eqn:E.
  - rewrite Article_init_success by assumption. simpl.
    apply wf_with_Article; [assumption |].
    apply Article_args_valid; assumption.
  - destruct (Article_init_failure _ _ _ st E) as [msg ->]. assumption.
Qed.

Lemma wf_Magazine_init st name category :
  wf st → wf (Magazine.__init__ name category st).2.
Proof.
  intros Hwf.
  destruct (Magazine_args_ok name category) eqn:E.
  - rewrite Magazine_init_success by assumption. simpl.
    apply wf_with_Magazine; [assumption |].
    apply Magazine_args_valid; assumption.
  - destruct (Magazine_init_failure _ _ st E) as [msg ->]. assumption.
Qed.

Lemma wf_Author_init st name : wf st → wf (Author.__init__ name st).2.
Proof.
  intros Hwf.
  destruct (Author_args_ok name) eqn:E.
  - rewrite Author_init_success by assumption. simpl.
    apply wf_with_Author; [assumption |].
    apply Author_args_valid; assumption.
  - destruct (Author_init_failure _ st E) as [msg ->]. assumption.
Qed.

Lemma bind_unit_state {A} (c : M A) st :
  (c;; mret tt : M unit) st = ((c st).1 ≫= (λ _, Ok tt), (c st).2).
Proof.
  unfold mbind, mret, M_bind, M_ret, result_bind.
  destruct (c st) as [[a | e] st']; reflexivity.
Qed.

Lemma wf_initial : wf initial.
Proof. repeat split; constructor. Qed.

Lemma wf_exec st c : wf st → call_live st c → wf (exec c st).2.
Proof.
  intros Hwf Hc. destruct c; simpl in *.
  - rewrite bind_unit_state. simpl. apply wf_Author_init, Hwf.
  - rewrite bind_unit_state. simpl. apply wf_Magazine_init, Hwf.
  - rewrite bind_unit_state. simpl. apply wf_Article_init; tauto.
  - rewrite bind_unit_state. simpl. unfold Author.add_article.
    apply wf_Article_init; tauto.
  - exact Hwf.
  - apply wf_set_author; tauto.
  - apply wf_set_magazine; tauto.
  - exact Hwf.
  - apply wf_set_name, Hwf.
  - apply wf_set_category, Hwf.
Qed.

(** Every state that a client program can produce is well formed. *)
Lemma reachable_wf st : reachable st → wf st.
Proof.
  induction 1 as [| st c _ IH Hc]; [apply wf_initial | by apply wf_exec].
Qed.

(** ** Counting dicts *)

Lemma dict_get_set_eq d k n default : dict_get (dict_set d k n) k default = n.
Proof.
  induction d as [| [k' n'] d IH]; simpl.
  - rewrite decide_True; reflexivity.
  - destruct (decide (k' = k)) as [E | E]; simpl.
    + rewrite decide_True; [reflexivity | exact E].
    + rewrite decide_False; assumption.
Qed.

Lemma dict_get_set_ne d k k' n default :
  k ≠ k' → dict_get (dict_set d k n) k' default = dict_get d k' default.
Proof.
  intros Hne. induction d as [| [k0 n0] d IH]; simpl.
  - rewrite decide_False; [reflexivity | exact Hne].
  - destruct (decide (k0 = k)) as [-> | E]; simpl.
    + rewrite !decide_False; [reflexivity | exact Hne | exact Hne].
    + destruct (decide (k0 = k')); [reflexivity | exact IH].
Qed.

Lemma dict_keys_set d k n :
  dict_keys (dict_set d k n) =
    if decide (k ∈ dict_keys d) then dict_keys d else dict_keys d ++ [k].
Proof.
  unfold dict_keys. induction d as [| [k' n'] d IH].
  - cbn. case_decide as H; [by apply elem_of_nil in H | reflexivity].
  - cbn [dict_set]. destruct (decide (k' = k)) as [-> | E].
    + rewrite decide_True by (rewrite fmap_cons; left). reflexivity.
    + rewrite !fmap_cons, IH. cbn [fst].
      destruct (decide (k ∈ d.*1)) as [Hin | Hin].
      * rewrite decide_True by (by right). reflexivity.
      * rewrite decide_False; [reflexivity |].
        intros [Heq | H]%elem_of_cons; [congruence | contradiction].
Qed.

Lemma dict_get_absent d k default :
  k ∉ dict_keys d → dict_get d k default = default.
Proof.
  unfold dict_keys. induction d as [| [k' n'] d IH]; simpl; [reflexivity |].
  intros H. apply not_elem_of_cons in H as [Hne Hd].
  rewrite decide_False by congruence. auto.
Qed.

Lemma dict_get_item d k n default :
  NoDup (dict_keys d) → (k, n) ∈ d → dict_get d k default = n.
Proof.
  unfold dict_keys. induction d as [| [k' n'] d IH]; simpl.
  - intros _ H. by apply elem_of_nil in H.
  - intros [Hk Hd]%NoDup_cons [Heq | Hin]%elem_of_cons.
    + injection Heq as <- <-. rewrite decide_True; reflexivity.
    + rewrite decide_False; [auto |].
      intros ->. apply Hk. apply list_elem_of_fmap. by exists (k, n).
Qed.

Lemma dict_item_get d k default :
  k ∈ dict_keys d → (k, dict_get d k default) ∈ d.
Proof.
  unfold dict_keys. induction d as [| [k' n'] d IH]; simpl.
  - intros H. by apply elem_of_nil in H.
  - intros H. destruct (decide (k' = k)) as [-> | E]; [left |].
    right. apply IH. apply elem_of_cons in H as [Heq | H]; [congruence | exact H].
Qed.

Lemma count_keys_snoc l k : count_keys (l ++ [k]) = count_step (count_keys l) k.
Proof. unfold count_keys. apply foldl_snoc. Qed.

Lemma occurrences_snoc v l x :
  occurrences v (l ++ [x]) = occurrences v l + (if decide (x = v) then 1 else 0).
Proof.
  unfold occurrences. rewrite filter_app, length_app. f_equal.
  rewrite filter_cons, filter_nil. destruct (decide (x = v)); reflexivity.
Qed.

Lemma occurrences_pos v l : 0 < occurrences v l ↔ v ∈ l.
Proof.
  unfold occurrences. split.
  - intros H. destruct (filter (λ x, x = v) l) as [| y f] eqn:E; simpl in H; [lia |].
    assert (Hy : y ∈ filter (λ x, x = v) l) by (rewrite E; left).
    apply list_elem_of_filter in Hy as [-> Hy]. exact Hy.
  - intros H.
    assert (Hv : v ∈ filter (λ x, x = v) l) by (by apply list_elem_of_filter).
    destruct (filter (λ x, x = v) l); [by apply elem_of_nil in Hv | simpl; lia].
Qed.

(** The dict built by a counting loop holds, for every key, the number of
    times the loop met it. *)
Lemma count_keys_get l k : dict_get (count_keys l) k 0 = occurrences k l.
Proof.
  induction l as [| x l IH] using rev_ind; [reflexivity |].
  rewrite count_keys_snoc, occurrences_snoc. unfold count_step.
  destruct (decide (x = k)) as [-> | Hne].
  - rewrite dict_get_set_eq, IH. reflexivity.
  - rewrite dict_get_set_ne by exact Hne. rewrite IH. lia.
Qed.

Lemma count_keys_elem l k : k ∈ dict_keys (count_keys l) ↔ k ∈ l.
Proof.
  induction l as [| x l IH] using rev_ind; [reflexivity |].
  rewrite count_keys_snoc. unfold count_step. rewrite dict_keys_set.
  rewrite elem_of_app, list_elem_of_singleton.
  destruct (decide (x ∈ dict_keys (count_keys l))) as [Hin | Hin].
  - rewrite IH. split; [tauto |]. intros [H | ->]; [exact H | by apply IH].
  - rewrite elem_of_app, list_elem_of_singleton, IH. reflexivity.
Qed.

Lemma count_keys_NoDup l : NoDup (dict_keys (count_keys l)).
Proof.
  induction l as [| x l IH] using rev_ind; [constructor |].
  rewrite count_keys_snoc. unfold count_step. rewrite dict_keys_set.
  destruct (decide (x ∈ dict_keys (count_keys l))) as [Hin | Hin]; [exact IH |].
  apply NoDup_app. split; [exact IH |]. split; [| apply NoDup_singleton].
  intros y Hy ->%list_elem_of_singleton. contradiction.
Qed.

(** *** First occurrences *)

Lemma index_of_lt v l i : index_of v l = Some i → i < length l.
Proof.
  revert i. induction l as [| x l IH]; simpl; [discriminate |].
  intros i. destruct (decide (x = v)).
  - intros [= <-]. lia.
  - destruct (index_of v l) as [j |]; [| discriminate].
    intros [= <-]. specialize (IH j eq_refl). lia.
Qed.

Lemma index_of_elem v l : v ∈ l ↔ ∃ i, index_of v l = Some i.
Proof.
  induction l as [| x l IH]; simpl.
  - split; [intros H; by apply elem_of_nil in H | intros [? ?]; discriminate].
  - destruct (decide (x = v)) as [-> | Hne].
    + split; [eauto | left].
    + rewrite elem_of_cons, IH. split.
      * intros [? | [i ->]]; [congruence | eauto].
      * intros [i H]. right. destruct (index_of v l); [eauto | discriminate].
Qed.

Lemma index_of_app_l v l l' i :
  index_of v l = Some i → index_of v (l ++ l') = Some i.
Proof.
  revert i. induction l as [| x l IH]; simpl; [discriminate |].
  intros i. destruct (decide (x = v)); [auto |].
  destruct (index_of v l) as [j |]; [| discriminate].
  intros [= <-]. rewrite (IH j eq_refl). reflexivity.
Qed.

Lemma index_of_fresh v l : v ∉ l → index_of v (l ++ [v]) = Some (length l).
Proof.
  induction l as [| x l IH]; simpl.
  - intros _. rewrite decide_True; reflexivity.
  - intros [Hne Hl]%not_elem_of_cons.
    rewrite decide_False by congruence. rewrite IH by exact Hl. reflexivity.
Qed.

(** The keys of a counting dict are in the order in which the loop first
    met them. *)
Lemma count_keys_order l pre m post x :
  dict_keys (count_keys l) = pre ++ m :: post → x ∈ post →
  ∃ i j, index_of m l = Some i ∧ index_of x l = Some j ∧ i < j.
Proof.
  revert pre post. induction l as [| y l IH] using rev_ind; intros pre post.
  - intros H. by destruct pre.
  - rewrite count_keys_snoc. unfold count_step. rewrite dict_keys_set.
    destruct (decide (y ∈ dict_keys (count_keys l))) as [Hin | Hin].
    + intros Hk Hx. destruct (IH _ _ Hk Hx) as (i & j & Hi & Hj & Hlt).
      exists i, j. eauto using index_of_app_l.
    + intros Hk Hx.
      destruct post as [| p post _] using rev_ind; [by apply elem_of_nil in Hx |].
      change (pre ++ m :: post ++ [p]) with (pre ++ (m :: post) ++ [p]) in Hk.
      rewrite app_assoc in Hk. apply app_inj_tail in Hk as [Hk <-].
      assert (Hm : m ∈ l).
      { apply count_keys_elem. rewrite Hk. apply elem_of_app. right. left. }
      apply index_of_elem in Hm as [i Hi].
      apply elem_of_app in Hx as [Hx | ->%list_elem_of_singleton].
      * destruct (IH _ _ Hk Hx) as (i' & j & Hi' & Hj & Hlt).
        exists i', j. eauto using index_of_app_l.
      * exists i, (length l). split; [by apply index_of_app_l |].
        split; [| by eapply index_of_lt].
        apply index_of_fresh. by rewrite <- count_keys_elem.
Qed.

(** *** max *)

Lemma max_from_spec {A} (key : A → nat) best l :
  (max_from key best l = best ∧ ∀ x, x ∈ l → key x ≤ key best) ∨
  (∃ pre post, l = pre ++ max_from key best l :: post ∧
     key best < key (max_from key best l) ∧
     (∀ x, x ∈ pre → key x < key (max_from key best l)) ∧
     (∀ x, x ∈ post → key x ≤ key (max_from key best l))).
Proof.
  revert best. induction l as [| y l IH]; intros best; simpl.
  - left. split; [reflexivity |]. intros x H. by apply elem_of_nil in H.
  - destruct (key best <? key y) eqn:E.
    + apply Nat.ltb_lt in E. right.
      destruct (IH y) as [[Heq Hle] | (pre & post & Hl & Hlt & Hpre & Hpost)].
      * exists [], l. rewrite Heq. simpl. repeat split; try assumption.
        intros x H. by apply elem_of_nil in H.
      * exists (y :: pre), post. split; [simpl; congruence |].
        split; [lia |]. split; [| exact Hpost].
        intros x [-> | Hx]%elem_of_cons; [exact Hlt | by apply Hpre].
    + apply Nat.ltb_ge in E.
      destruct (IH best) as [[Heq Hle] | (pre & post & Hl & Hlt & Hpre & Hpost)].
      * left. split; [exact Heq |].
        intros x [-> | Hx]%elem_of_cons; [exact E | by apply Hle].
      * right. exists (y :: pre), post. split; [simpl; congruence |].
        split; [exact Hlt |]. split; [| exact Hpost].
        intros x [-> | Hx]%elem_of_cons; [lia | by apply Hpre].
Qed.

(** [max] returns the first element that carries the greatest key. *)
Lemma py_max_spec {A} (key : A → nat) l m :
  py_max key l = Ok m →
  ∃ pre post, l = pre ++ m :: post ∧
    (∀ x, x ∈ pre → key x < key m) ∧ (∀ x, x ∈ post → key x ≤ key m).
Proof.
  destruct l as [| y l]; simpl; [discriminate |]. intros [= <-].
  destruct (max_from_spec key y l)
    as [[Heq Hle] | (pre & post & Hl & Hlt & Hpre & Hpost)].
  - exists [], l. rewrite Heq. simpl. split; [reflexivity |].
    split; [| exact Hle]. intros x H. by apply elem_of_nil in H.
  - exists (y :: pre), post. split; [simpl; congruence |].
    split; [| exact Hpost].
    intros x [-> | Hx]%elem_of_cons; [exact Hlt | by apply Hpre].
Qed.

(** ** The queries on a well-formed state *)

Lemma wf_registry st : wf st → Forall (λ r, r < length (articles st)) (Article_all st).
Proof. intros H. apply H. Qed.

Lemma py_filter_attr (get : ArticleObj → value) (v : value) st l :
  Forall (λ r, r < length (articles st)) l →
  py_filter
    (λ r, a ← (o ← get_Article r st; mret (get o)); mret (bool_decide (a = v))) l
  = Ok (filter (λ r, get <$> articles st !! r = Some v) l).
Proof.
  induction 1 as [| r l Hr _ IH]; [reflexivity |].
  cbn [py_filter]. rewrite IH. unfold get_Article.
  destruct (lookup_lt_is_Some_2 _ _ Hr) as [o Ho]. rewrite Ho.
  rewrite filter_cons, Ho. cbn.
  destruct (decide (get o = v)) as [E | E].
  - rewrite bool_decide_eq_true_2 by exact E.
    rewrite decide_True by congruence. reflexivity.
  - rewrite bool_decide_eq_false_2 by exact E.
    rewrite decide_False by congruence. reflexivity.
Qed.

Lemma py_map_attr (get : ArticleObj → value) st l :
  Forall (λ r, r < length (articles st)) l →
  py_map (λ r, o ← get_Article r st; mret (get o)) l
  = Ok (omap (λ r, get <$> articles st !! r) l).
Proof.
  induction 1 as [| r l Hr _ IH]; [reflexivity |].
  cbn [py_map]. rewrite IH. unfold get_Article.
  destruct (lookup_lt_is_Some_2 _ _ Hr) as [o Ho]. cbn. rewrite Ho.
  reflexivity.
Qed.

Lemma py_for_count (f : nat → result value) l ks d :
  py_map f l = Ok ks →
  py_for
    (λ (counts : dict) x,
       k ← f x; mret (dict_set counts k (dict_get counts k 0 + 1))) d l
  = Ok (foldl count_step d ks).
Proof.
  revert ks d. induction l as [| x l IH]; intros ks d; cbn [py_map py_for].
  - intros [= <-]. reflexivity.
  - destruct (f x) as [k | e]; cbn; [| discriminate].
    destruct (py_map f l) as [ks' | e]; cbn; [| discriminate].
    intros [= <-]. cbn. apply IH. reflexivity.
Qed.

Lemma Author_articles_ok st self :
  wf st → Author.articles self st = Ok (articles_by st self).
Proof.
  intros Hwf. unfold Author.articles, Article.author, articles_by, author_of.
  apply py_filter_attr, wf_registry, Hwf.
Qed.

Lemma Magazine_articles_ok st self :
  wf st → Magazine.articles self st = Ok (articles_in st self).
Proof.
  intros Hwf. unfold Magazine.articles, Article.magazine, articles_in, magazine_of.
  apply py_filter_attr, wf_registry, Hwf.
Qed.

Lemma articles_in_live st self :
  wf st → Forall (λ r, r < length (articles st)) (articles_in st self).
Proof.
  intros Hwf. apply Forall_forall. intros r [_ Hr]%list_elem_of_filter.
  revert r Hr. apply Forall_forall, wf_registry, Hwf.
Qed.

Lemma articles_by_live st self :
  wf st → Forall (λ r, r < length (articles st)) (articles_by st self).
Proof.
  intros Hwf. apply Forall_forall. intros r [_ Hr]%list_elem_of_filter.
  revert r Hr. apply Forall_forall, wf_registry, Hwf.
Qed.

(** The counting loop of [contributing_authors] and its filter. *)
Lemma contributing_authors_ok st self :
  wf st →
  Magazine.contributing_authors self st =
    Ok (let result :=
          (filter (λ item : value * nat, 2 < item.2)
             (count_keys (authors_in st self))).*1 in
        if result is [] then None else Some result).
Proof.
  intros Hwf. unfold Magazine.contributing_authors.
  rewrite Magazine_articles_ok by exact Hwf. cbn.
  unfold Article.author.
  erewrite py_for_count; [reflexivity |].
  apply py_map_attr, articles_in_live, Hwf.
Qed.

Lemma magazines_in_nil st :
  wf st → magazines_in st = [] ↔ Article_all st = [].
Proof.
  intros Hwf. unfold magazines_in. split; [| intros ->; reflexivity].
  pose proof (wf_registry st Hwf) as Hr.
  destruct (Article_all st) as [| r l]; [reflexivity |].
  apply Forall_cons in Hr as [Hr _].
  destruct (lookup_lt_is_Some_2 _ _ Hr) as [o Ho].
  cbn. unfold magazine_of. rewrite Ho. discriminate.
Qed.

(** [top_publisher] depends on the state only through the magazines of the
    registered articles. *)
Lemma top_publisher_ok st :
  wf st → Magazine.top_publisher st = top_of (magazines_in st).
Proof.
  intros Hwf. unfold Magazine.top_publisher, top_of.
  pose proof (magazines_in_nil st Hwf) as Hnil.
  destruct (Article_all st) as [| r l] eqn:E.
  - rewrite (proj2 Hnil eq_refl). reflexivity.
  - destruct (magazines_in st) as [| v mags] eqn:Em.
    + destruct Hnil as [Hnil _]. discriminate (Hnil eq_refl).
    + unfold Article.magazine. erewrite py_for_count.
      2:{ apply py_map_attr. rewrite <- E. apply wf_registry, Hwf. }
      fold (magazine_of st). rewrite <- E. fold (magazines_in st).
      rewrite Em. reflexivity.
Qed.

(** ** Construction of articles *)

Lemma title_ok_spec v :
  title_ok v = true ↔ ∃ s, v = VStr s ∧ 5 ≤ String.length s ≤ 50.
Proof.
  destruct v; simpl; try (split; [discriminate | intros (? & ? & ?); discriminate]).
  rewrite leb_range_true. split; [eauto |].
  intros (? & [= <-] & ?). assumption.
Qed.

Lemma registry_with_Article st o :
  Forall (λ r, r < length (articles st)) (Article_all st) →
  Forall (λ r, r < length (articles (with_Article st o)))
    (Article_all (with_Article st o)).
Proof.
  intros Hr. unfold with_Article. simpl. rewrite length_app. simpl.
  apply Forall_app. split.
  - eapply Forall_impl; [exact Hr |]. simpl. intros. lia.
  - constructor; [lia | constructor].
Qed.

(** C1: for an Author [a], a Magazine [m] and a string [s] of 5 to 50
    characters, [Article(a, m, s)] returns a new article, [Article.all]
    becomes the old registry followed by that one article, and the article
    is in [a.articles()] and in [m.articles()]. *)
Theorem Article_init_registers st a m s :
  wf st → 5 ≤ String.length s ≤ 50 →
  ∃ self st',
    Article.__init__ (VAuthor a) (VMagazine m) (VStr s) st = (Ok self, st') ∧
    Article_all st' = Article_all st ++ [self] ∧
    (self ∉ Article_all st) ∧
    Article.title self st' = Ok (VStr s) ∧
    (∃ l, Author.articles a st' = Ok l ∧ self ∈ l) ∧
    (∃ l, Magazine.articles m st' = Ok l ∧ self ∈ l).
Proof.
  intros Hwf Hs.
  assert (Hok : Article_args_ok (VAuthor a) (VMagazine m) (VStr s) = true).
  { unfold Article_args_ok. simpl. by apply leb_range_true. }
  pose proof (wf_registry st Hwf) as Hr.
  set (o := {| art_author := VAuthor a; art_magazine := VMagazine m;
               art_title := VStr s |}).
  exists (length (articles st)), (with_Article st o).
  assert (Hnew : articles (with_Article st o) !! length (articles st) = Some o).
  { simpl. apply list_lookup_middle. reflexivity. }
  split; [by apply Article_init_success |]. split; [reflexivity |].
  split.
  { intros Hin. eapply Forall_forall in Hr; [| exact Hin]. simpl in Hr. lia. }
  split.
  { unfold Article.title, get_Article. rewrite Hnew. reflexivity. }
  split.
  - eexists. split.
    + unfold Author.articles, Article.author.
      apply py_filter_attr, registry_with_Article, Hr.
    + apply list_elem_of_filter. rewrite Hnew. split; [reflexivity |].
      simpl. apply elem_of_app. right. left.
  - eexists. split.
    + unfold Magazine.articles, Article.magazine.
      apply py_filter_attr, registry_with_Article, Hr.
    + apply list_elem_of_filter. rewrite Hnew. split; [reflexivity |].
      simpl. apply elem_of_app. right. left.
Qed.

Lemma wf_newsstand : wf newsstand.
Proof. apply (bool_decide_unpack _). vm_compute. exact I. Qed.

Lemma Article_init_registers_witness :
  wf newsstand ∧ 5 ≤ String.length "Hello" ≤ 50 ∧
  ∃ self st',
    Article.__init__ (VAuthor 0) (VMagazine 0) (VStr "Hello") newsstand
      = (Ok self, st') ∧
    Article_all st' = Article_all newsstand ++ [self] ∧
    (self ∉ Article_all newsstand) ∧
    Article.title self st' = Ok (VStr "Hello") ∧
    (∃ l, Author.articles 0 st' = Ok l ∧ self ∈ l) ∧
    (∃ l, Magazine.articles 0 st' = Ok l ∧ self ∈ l).
Proof.
  assert (Hwf : wf newsstand) by (apply (bool_decide_unpack _); vm_compute; exact I).
  assert (Hs : 5 ≤ String.length "Hello" ≤ 50) by (vm_compute; lia).
  split; [exact Hwf |]. split; [exact Hs |].
  exact (Article_init_registers newsstand 0 0 "Hello" Hwf Hs).
Defined.

(** C2: [Article(author, magazine, title)] raises exactly when [author] is
    not an Author, or [magazine] is not a Magazine, or [title] is not a
    string, or the length of [title] is outside 5..50; what it raises is
    the validation error, and the state, so also [Article.all], is then
    what it was.  A title of 4 characters and the title "Hi" are refused, the title
    "Hello" is accepted. *)
Theorem Article_init_raises st author magazine title :
  ((∃ e, (Article.__init__ author magazine title st).1 = Raise e) ↔
     isinstance_Author author = false ∨
     isinstance_Magazine magazine = false ∨
     isinstance_str title = false ∨
     ∃ s, title = VStr s ∧ ¬ (5 ≤ String.length s ≤ 50)) ∧
  (∀ e, (Article.__init__ author magazine title st).1 = Raise e →
     (∃ msg, e = Exception msg) ∧
     (Article.__init__ author magazine title st).2 = st ∧
     Article_all (Article.__init__ author magazine title st).2 = Article_all st) ∧
  (∀ a m s, String.length s = 4 →
     Article.__init__ (VAuthor a) (VMagazine m) (VStr s) st =
       (Raise (Exception "Title must be between 5 and 50 characters"), st)) ∧
  (∀ a m,
     Article.__init__ (VAuthor a) (VMagazine m) (VStr "Hi") st =
       (Raise (Exception "Title must be between 5 and 50 characters"), st)) ∧
  (∀ a m,
     ∃ st', Article.__init__ (VAuthor a) (VMagazine m) (VStr "Hello") st =
       (Ok (length (articles st)), st') ∧
       Article_all st' = Article_all st ++ [length (articles st)]).
Proof.
  split; [| split; [| split; [| split]]].
  - destruct (Article_args_ok author magazine title) eqn:E.
    + rewrite Article_init_success by exact E. simpl. split.
      * intros [e He]. discriminate.
      * intros H. exfalso. unfold Article_args_ok in E.
        apply andb_true_iff in E as [E Ht]. apply andb_true_iff in E as [Ea Em].
        apply title_ok_spec in Ht as (s & -> & Hs).
        destruct H as [H | [H | [H | (s' & [= <-] & H)]]];
          [congruence | congruence | discriminate | contradiction].
    + destruct (Article_init_failure _ _ _ st E) as [msg ->]. simpl.
      split; [intros _ | eauto].
      unfold Article_args_ok in E.
      destruct (isinstance_Author author); [| by left].
      destruct (isinstance_Magazine magazine); [| by right; left].
      simpl in E. destruct title as [| |s| | |];
        try (right; right; left; reflexivity).
      right. right. right. exists s. split; [reflexivity |].
      by apply leb_range_false.
  - intros e He.
    destruct (Article_args_ok author magazine title) eqn:E.
    + rewrite Article_init_success in He by exact E. discriminate.
    + destruct (Article_init_failure _ _ _ st E) as [msg Hmsg].
      rewrite Hmsg in *. simpl in *. injection He as <-. eauto.
  - intros a m s Hs. unmonad.
    replace ((5 <=? String.length s) && (String.length s <=? 50)) with false;
      [reflexivity |].
    symmetry. apply leb_range_false. lia.
  - intros a m. reflexivity.
  - intros a m. eexists. split; [by apply Article_init_success | reflexivity].
Qed.

(** ** Assignments that are ignored *)

(** No call of a client changes the title of an existing article or the
    name of an existing author. *)
Lemma title_is_immutable st c self :
  self < length (articles st) →
  Article.title self (exec c st).2 = Article.title self st.
Proof.
  intros Hlt. unfold Article.title, get_Article.
  enough (art_title <$> articles (exec c st).2 !! self
          = art_title <$> articles st !! self) as Heq.
  { destruct (articles (exec c st).2 !! self), (articles st !! self);
      cbn in *; congruence. }
  destruct c as [n | n c | a m t | s m t | s v | s v | s v | s v | s v | s v];
    cbn [exec]; rewrite ?bind_unit_state; cbn [snd]; try reflexivity.
  - destruct (Author_args_ok n) eqn:E.
    + by rewrite Author_init_success.
    + by destruct (Author_init_failure _ st E) as [msg ->].
  - destruct (Magazine_args_ok n c) eqn:E.
    + by rewrite Magazine_init_success.
    + by destruct (Magazine_init_failure _ _ st E) as [msg ->].
  - destruct (Article_args_ok a m t) eqn:E.
    + rewrite Article_init_success by exact E. simpl.
      by rewrite lookup_app_l.
    + by destruct (Article_init_failure _ _ _ st E) as [msg ->].
  - unfold Author.add_article.
    destruct (Article_args_ok (VAuthor s) m t) eqn:E.
    + rewrite Article_init_success by exact E. simpl.
      by rewrite lookup_app_l.
    + by destruct (Article_init_failure _ _ _ st E) as [msg ->].
  - unmonad. destruct v; simpl; try reflexivity.
    destruct (articles st !! s) as [o |] eqn:Ho; simpl; [| reflexivity].
    destruct (decide (s = self)) as [-> | Hne].
    + rewrite list_lookup_insert_eq by exact Hlt. by rewrite Ho.
    + by rewrite list_lookup_insert_ne.
  - unmonad. destruct v; simpl; try reflexivity.
    destruct (articles st !! s) as [o |] eqn:Ho; simpl; [| reflexivity].
    destruct (decide (s = self)) as [-> | Hne].
    + rewrite list_lookup_insert_eq by exact Hlt. by rewrite Ho.
    + by rewrite list_lookup_insert_ne.
  - unmonad. destruct (Magazine.name_ok v); [| reflexivity].
    by destruct (magazines st !! s).
  - unmonad. destruct (Magazine.category_ok v); [| reflexivity].
    by destruct (magazines st !! s).
Qed.

Lemma name_is_immutable st c self :
  self < length (authors st) →
  Author.name self (exec c st).2 = Author.name self st.
Proof.
  intros Hlt. unfold Author.name, get_Author.
  enough (authors (exec c st).2 !! self = authors st !! self) as ->
    by reflexivity.
  destruct c as [n | n c | a m t | s m t | s v | s v | s v | s v | s v | s v];
    cbn [exec]; rewrite ?bind_unit_state; cbn [snd]; try reflexivity.
  - destruct (Author_args_ok n) eqn:E.
    + rewrite Author_init_success by exact E. simpl. by rewrite lookup_app_l.
    + by destruct (Author_init_failure _ st E) as [msg ->].
  - destruct (Magazine_args_ok n c) eqn:E.
    + by rewrite Magazine_init_success.
    + by destruct (Magazine_init_failure _ _ st E) as [msg ->].
  - destruct (Article_args_ok a m t) eqn:E.
    + by rewrite Article_init_success.
    + by destruct (Article_init_failure _ _ _ st E) as [msg ->].
  - unfold Author.add_article.
    destruct (Article_args_ok (VAuthor s) m t) eqn:E.
    + by rewrite Article_init_success.
    + by destruct (Article_init_failure _ _ _ st E) as [msg ->].
  - unmonad. destruct v; simpl; try reflexivity.
    by destruct (articles st !! s).
  - unmonad. destruct v; simpl; try reflexivity.
    by destruct (articles st !! s).
  - unmonad. destruct (Magazine.name_ok v); [| reflexivity].
    by destruct (magazines st !! s).
  - unmonad. destruct (Magazine.category_ok v); [| reflexivity].
    by destruct (magazines st !! s).
Qed.

(** C5: whatever is assigned to [article.title] or to [author.name], the
    assignment returns without an error and the state is what it was, so
    the title, the name and every other attribute are unchanged. *)
Theorem title_and_name_setters_ignore st self v :
  Article.set_title self v st = (Ok tt, st) ∧
  Author.set_name self v st = (Ok tt, st) ∧
  Article.title self (Article.set_title self v st).2 = Article.title self st ∧
  Author.name self (Author.set_name self v st).2 = Author.name self st ∧
  (exec (SetArticleTitle self v) st).2 = st ∧
  (exec (SetAuthorName self v) st).2 = st.
Proof. repeat split. Qed.

(** ** Construction of authors and magazines *)

(** C8: [Author(name)] raises exactly when [name] is not a string or is
    the empty string; [Magazine(name, category)] raises exactly when
    [name] is not a string or its length is outside 2..16, or [category]
    is not a string or is empty.  What is raised is the validation error
    and the state is what it was.  [Author("")] raises and [Author("A")]
    returns the new author. *)
Theorem constructors_raise st name category :
  ((∃ e, (Author.__init__ name st).1 = Raise e) ↔
     isinstance_str name = false ∨
     ∃ s, name = VStr s ∧ String.length s = 0) ∧
  ((∃ e, (Magazine.__init__ name category st).1 = Raise e) ↔
     isinstance_str name = false ∨
     (∃ s, name = VStr s ∧ ¬ (2 ≤ String.length s ≤ 16)) ∨
     isinstance_str category = false ∨
     ∃ c, category = VStr c ∧ String.length c = 0) ∧
  (∀ e, (Author.__init__ name st).1 = Raise e →
     (∃ msg, e = Exception msg) ∧ (Author.__init__ name st).2 = st) ∧
  (∀ e, (Magazine.__init__ name category st).1 = Raise e →
     (∃ msg, e = Exception msg) ∧ (Magazine.__init__ name category st).2 = st) ∧
  Author.__init__ (VStr "") st =
    (Raise (Exception "Name must be longer than 0 characters"), st) ∧
  (Author.__init__ (VStr "A") st).1 = Ok (length (authors st)).
Proof.
  split; [| split; [| split; [| split; [| split]]]].
  - destruct (Author_args_ok name) eqn:E.
    + rewrite Author_init_success by exact E. simpl. split.
      * intros [e He]. discriminate.
      * intros H. exfalso. destruct name as [| |n| | |]; try discriminate.
        simpl in E. apply negb_true_iff, Nat.eqb_neq in E.
        destruct H as [H | (s & [= <-] & H)]; [discriminate | contradiction].
    + destruct (Author_init_failure _ st E) as [msg ->]. simpl.
      split; [intros _ | eauto].
      destruct name as [| |n| | |]; try (left; reflexivity).
      right. exists n. split; [reflexivity |].
      simpl in E. by apply negb_false_iff, Nat.eqb_eq in E.
  - destruct (Magazine_args_ok name category) eqn:E.
    + rewrite Magazine_init_success by exact E. simpl. split.
      * intros [e He]. discriminate.
      * intros H. exfalso. unfold Magazine_args_ok in E.
        apply andb_true_iff in E as [En Ec].
        apply name_ok_spec in En as (n & -> & Hn).
        apply category_ok_spec in Ec as (c & -> & Hc).
        destruct H as [H | [(s & [= <-] & H) | [H | (s & [= <-] & H)]]];
          [discriminate | contradiction | discriminate | lia].
    + destruct (Magazine_init_failure _ _ st E) as [msg ->]. simpl.
      split; [intros _ | eauto].
      unfold Magazine_args_ok in E.
      destruct name as [| |n| | |]; try (left; reflexivity).
      simpl in E.
      destruct ((2 <=? String.length n) && (String.length n <=? 16)) eqn:En.
      * simpl in E. destruct category as [| |c| | |];
          try (right; right; left; reflexivity).
        right. right. right. exists c. split; [reflexivity |].
        simpl in E. apply Nat.ltb_ge in E. lia.
      * right. left. exists n. split; [reflexivity |].
        by apply leb_range_false.
  - intros e He. destruct (Author_args_ok name) eqn:E.
    + rewrite Author_init_success in He by exact E. discriminate.
    + destruct (Author_init_failure _ st E) as [msg Hmsg].
      rewrite Hmsg in *. simpl in *. injection He as <-. eauto.
  - intros e He. destruct (Magazine_args_ok name category) eqn:E.
    + rewrite Magazine_init_success in He by exact E. discriminate.
    + destruct (Magazine_init_failure _ _ st E) as [msg Hmsg].
      rewrite Hmsg in *. simpl in *. injection He as <-. eauto.
  - reflexivity.
  - reflexivity.
Qed.

(** ** Assignments to the attributes of a magazine *)

Lemma set_name_rejected st self v :
  Magazine.name_ok v = false → Magazine.set_name self v st = (Ok tt, st).
Proof. intros H. unfold Magazine.set_name. rewrite H. reflexivity. Qed.

Lemma set_name_accepted st self o v :
  magazines st !! self = Some o → Magazine.name_ok v = true →
  (Magazine.set_name self v st).1 = Ok tt ∧
  magazines (Magazine.set_name self v st).2 =
    <[self := {| mag_name := v; mag_category := mag_category o |}]> (magazines st).
Proof.
  intros Ho Hv. unfold Magazine.set_name, update_Magazine.
  rewrite Hv, Ho. split; reflexivity.
Qed.

Lemma set_category_rejected st self v :
  Magazine.category_ok v = false → Magazine.set_category self v st = (Ok tt, st).
Proof. intros H. unfold Magazine.set_category. rewrite H. reflexivity. Qed.

Lemma set_category_accepted st self o v :
  magazines st !! self = Some o → Magazine.category_ok v = true →
  (Magazine.set_category self v st).1 = Ok tt ∧
  magazines (Magazine.set_category self v st).2 =
    <[self := {| mag_name := mag_name o; mag_category := v |}]> (magazines st).
Proof.
  intros Ho Hv. unfold Magazine.set_category, update_Magazine.
  rewrite Hv, Ho. split; reflexivity.
Qed.

Lemma Magazine_valid_spec o :
  Magazine_valid o ↔
  ∃ n c, mag_name o = VStr n ∧ 2 ≤ String.length n ≤ 16 ∧
         mag_category o = VStr c ∧ 0 < String.length c.
Proof.
  unfold Magazine_valid. split.
  - intros [Hn Hc].
    destruct (mag_name o) as [| |n| | |]; try contradiction.
    destruct (mag_category o) as [| |c| | |]; try contradiction.
    exists n, c. auto.
  - intros (n & c & -> & Hn & -> & Hc). auto.
Qed.

(** C6: in every state that a client program can produce, every magazine
    has a name that is a string of 2 to 16 characters and a category that
    is a non-empty string.  An assignment to [name] or to [category] never
    raises and keeps this true: a value that is not such a string leaves
    the state as it was, and a value that is one replaces the attribute and
    leaves the other attribute alone. *)
Theorem Magazine_attributes_stay_valid st self o v :
  reachable st → magazines st !! self = Some o →
  (∃ n c, mag_name o = VStr n ∧ 2 ≤ String.length n ≤ 16 ∧
          mag_category o = VStr c ∧ 0 < String.length c) ∧
  ((Magazine.set_name self v st).1 = Ok tt ∧
   Forall Magazine_valid (magazines (Magazine.set_name self v st).2) ∧
   ((¬ ∃ s, v = VStr s ∧ 2 ≤ String.length s ≤ 16) →
      (Magazine.set_name self v st).2 = st) ∧
   (∀ s, v = VStr s → 2 ≤ String.length s ≤ 16 →
      Magazine.name self (Magazine.set_name self v st).2 = Ok v ∧
      Magazine.category self (Magazine.set_name self v st).2 =
        Ok (mag_category o))) ∧
  ((Magazine.set_category self v st).1 = Ok tt ∧
   Forall Magazine_valid (magazines (Magazine.set_category self v st).2) ∧
   ((¬ ∃ s, v = VStr s ∧ 0 < String.length s) →
      (Magazine.set_category self v st).2 = st) ∧
   (∀ s, v = VStr s → 0 < String.length s →
      Magazine.category self (Magazine.set_category self v st).2 = Ok v ∧
      Magazine.name self (Magazine.set_category self v st).2 =
        Ok (mag_name o))).
Proof.
  intros Hreach Ho. pose proof (reachable_wf st Hreach) as Hwf.
  assert (Hlt : self < length (magazines st)) by (by eapply lookup_lt_Some).
  split; [| split].
  - apply Magazine_valid_spec.
    destruct Hwf as (_ & _ & _ & Hm & _). by eapply Forall_lookup_1.
  - split; [| split; [| split]].
    + destruct (Magazine.name_ok v) eqn:Hv.
      * by apply (set_name_accepted st self o v).
      * by rewrite set_name_rejected.
    + apply (wf_set_name st self v Hwf).
    + intros Hno. rewrite set_name_rejected; [reflexivity |].
      destruct (Magazine.name_ok v) eqn:Hv; [| reflexivity].
      exfalso. by apply Hno, name_ok_spec.
    + intros s -> Hs.
      assert (Hv : Magazine.name_ok (VStr s) = true) by (apply name_ok_spec; eauto).
      destruct (set_name_accepted st self o _ Ho Hv) as [_ Hm].
      unfold Magazine.name, Magazine.category, get_Magazine. rewrite Hm.
      rewrite list_lookup_insert_eq by exact Hlt. split; reflexivity.
  - split; [| split; [| split]].
    + destruct (Magazine.category_ok v) eqn:Hv.
      * by apply (set_category_accepted st self o v).
      * by rewrite set_category_rejected.
    + apply (wf_set_category st self v Hwf).
    + intros Hno. rewrite set_category_rejected; [reflexivity |].
      destruct (Magazine.category_ok v) eqn:Hv; [| reflexivity].
      exfalso. by apply Hno, category_ok_spec.
    + intros s -> Hs.
      assert (Hv : Magazine.category_ok (VStr s) = true)
        by (apply category_ok_spec; eauto).
      destruct (set_category_accepted st self o _ Ho Hv) as [_ Hm].
      unfold Magazine.name, Magazine.category, get_Magazine. rewrite Hm.
      rewrite list_lookup_insert_eq by exact Hlt. split; reflexivity.
Qed.

Lemma reachable_newsstand : reachable newsstand.
Proof.
  unfold newsstand.
  repeat (apply reachable_call; [| simpl; tauto]).
  apply reachable_initial.
Qed.

Lemma Magazine_attributes_stay_valid_witness :
  reachable newsstand ∧
  Magazine.name 0 (Magazine.set_name 0 (VStr "Elle") newsstand).2 =
    Ok (VStr "Elle").
Proof.
  split; [apply reachable_newsstand |].
  refine (proj1 (proj2 (proj2 (proj2 (proj1 (proj2
    (Magazine_attributes_stay_valid newsstand 0
       {| mag_name := VStr "Vogue"; mag_category := VStr "Fashion" |}
       (VStr "Elle") reachable_newsstand eq_refl))))) "Elle" eq_refl _)).
  vm_compute. lia.
Defined.

(** C7, as stated: [Magazine("M", "Tech")] returns a magazine whose name
    stays "M" when "ThisIsWayTooLongAName" is assigned and becomes "OK"
    when "OK" is assigned afterwards.  It does not hold: the name "M" has
    one character and the constructor raises. *)
Lemma Magazine_M_Tech_is_refused :
  ¬ ∃ self st1,
      Magazine.__init__ (VStr "M") (VStr "Tech") initial = (Ok self, st1) ∧
      Magazine.name self
        (Magazine.set_name self (VStr "ThisIsWayTooLongAName") st1).2
        = Ok (VStr "M") ∧
      Magazine.name self
        (Magazine.set_name self (VStr "OK")
           (Magazine.set_name self (VStr "ThisIsWayTooLongAName") st1).2).2
        = Ok (VStr "OK").
Proof.
  intros (self & st1 & Hinit & _). vm_compute in Hinit. discriminate.
Qed.

(** C7, amended: [Magazine("M", "Tech")] raises the validation error.  For
    a name [n] of 2 to 16 characters and a non-empty category [c],
    [Magazine(n, c)] returns a magazine whose name stays [n] when
    "ThisIsWayTooLongAName" is assigned and becomes "OK" when "OK" is
    assigned afterwards. *)
Theorem Magazine_name_assignments st n c :
  2 ≤ String.length n ≤ 16 → 0 < String.length c →
  Magazine.__init__ (VStr "M") (VStr "Tech") st =
    (Raise (Exception "Name must be between 2 and 16 characters"), st) ∧
  ∃ self st1,
    Magazine.__init__ (VStr n) (VStr c) st = (Ok self, st1) ∧
    Magazine.name self st1 = Ok (VStr n) ∧
    Magazine.set_name self (VStr "ThisIsWayTooLongAName") st1 = (Ok tt, st1) ∧
    Magazine.name self
      (Magazine.set_name self (VStr "ThisIsWayTooLongAName") st1).2
      = Ok (VStr n) ∧
    (Magazine.set_name self (VStr "OK")
       (Magazine.set_name self (VStr "ThisIsWayTooLongAName") st1).2).1
      = Ok tt ∧
    Magazine.name self
      (Magazine.set_name self (VStr "OK")
         (Magazine.set_name self (VStr "ThisIsWayTooLongAName") st1).2).2
      = Ok (VStr "OK").
Proof.
  intros Hn Hc. split; [reflexivity |].
  assert (Hok : Magazine_args_ok (VStr n) (VStr c) = true).
  { apply Magazine_args_valid. split; assumption. }
  set (o := {| mag_name := VStr n; mag_category := VStr c |}).
  exists (length (magazines st)), (with_Magazine st o).
  assert (Hnew : magazines (with_Magazine st o) !! length (magazines st) = Some o).
  { simpl. apply list_lookup_middle. reflexivity. }
  assert (Hrej : Magazine.set_name (length (magazines st))
            (VStr "ThisIsWayTooLongAName") (with_Magazine st o)
          = (Ok tt, with_Magazine st o)).
  { apply set_name_rejected. reflexivity. }
  split; [by apply Magazine_init_success |].
  split; [unfold Magazine.name, get_Magazine; by rewrite Hnew |].
  split; [exact Hrej |]. rewrite Hrej. cbn [snd].
  split; [unfold Magazine.name, get_Magazine; by rewrite Hnew |].
  destruct (set_name_accepted _ _ o (VStr "OK") Hnew eq_refl) as [H1 H2].
  split; [exact H1 |].
  unfold Magazine.name, get_Magazine. rewrite H2.
  rewrite list_lookup_insert_eq; [reflexivity |].
  simpl. rewrite length_app. simpl. lia.
Qed.

Lemma Magazine_name_assignments_witness :
  2 ≤ String.length "MM" ≤ 16 ∧ 0 < String.length "Tech" ∧
  ∃ self st1,
    Magazine.__init__ (VStr "MM") (VStr "Tech") initial = (Ok self, st1) ∧
    Magazine.name self
      (Magazine.set_name self (VStr "OK")
         (Magazine.set_name self (VStr "ThisIsWayTooLongAName") st1).2).2
      = Ok (VStr "OK").
Proof.
  assert (Hn : 2 ≤ String.length "MM" ≤ 16) by (vm_compute; lia).
  assert (Hc : 0 < String.length "Tech") by (vm_compute; lia).
  split; [exact Hn |]. split; [exact Hc |].
  destruct (Magazine_name_assignments initial "MM" "Tech" Hn Hc)
    as (_ & self & st1 & H1 & _ & _ & _ & _ & H6).
  exists self, st1. split; assumption.
Defined.

(** ** Authors with more than two articles in a magazine *)

Lemma frequent_keys_elem l v :
  v ∈ (filter (λ item : value * nat, 2 < item.2) (count_keys l)).*1 ↔
  2 < occurrences v l.
Proof.
  rewrite list_elem_of_fmap. split.
  - intros ([k n] & -> & [Hn Hin]%list_elem_of_filter). simpl in *.
    rewrite <- count_keys_get.
    rewrite (dict_get_item _ k n 0 (count_keys_NoDup l) Hin). exact Hn.
  - intros Hocc. exists (v, dict_get (count_keys l) v 0). split; [reflexivity |].
    apply list_elem_of_filter. split.
    + simpl. by rewrite count_keys_get.
    + apply dict_item_get, count_keys_elem, occurrences_pos. lia.
Qed.

Lemma frequent_keys_NoDup l :
  NoDup (filter (λ item : value * nat, 2 < item.2) (count_keys l)).*1.
Proof.
  apply (sublist_NoDup _ (dict_keys (count_keys l)));
    [apply count_keys_NoDup |].
  unfold dict_keys. apply fmap_sublist, sublist_filter.
Qed.

(** C3: [magazine.contributing_authors()] counts, for every author, the
    articles of this magazine that have this author.  It returns [None]
    when no author has more than 2 of them, and otherwise a list without
    repetition that holds exactly the authors with more than 2; an author
    with exactly 3 articles in the magazine is in the list. *)
Theorem contributing_authors_spec st self :
  wf st →
  ∃ arts res,
    Magazine.articles self st = Ok arts ∧
    authors_in st self = omap (author_of st) arts ∧
    Magazine.contributing_authors self st = Ok res ∧
    (res = None ↔ ∀ v, occurrences v (authors_in st self) ≤ 2) ∧
    (∀ l, res = Some l →
       NoDup l ∧ ∀ v, v ∈ l ↔ 2 < occurrences v (authors_in st self)) ∧
    (∀ v, occurrences v (authors_in st self) = 3 →
       ∃ l, res = Some l ∧ v ∈ l).
Proof.
  intros Hwf. eexists _, _.
  split; [by apply Magazine_articles_ok |]. split; [reflexivity |].
  split; [by apply contributing_authors_ok |]. cbv zeta.
  pose proof (frequent_keys_elem (authors_in st self)) as Helem.
  pose proof (frequent_keys_NoDup (authors_in st self)) as Hnd.
  destruct ((filter (λ item : value * nat, 2 < item.2)
               (count_keys (authors_in st self))).*1) as [| a l] eqn:E.
  - split; [| split].
    + split; [intros _ v | reflexivity].
      apply Nat.nlt_ge. rewrite <- Helem. apply not_elem_of_nil.
    + intros l [=].
    + intros v Hv. exfalso. apply (not_elem_of_nil v), Helem. lia.
  - split; [| split].
    + split; [discriminate |]. intros Hall. exfalso.
      specialize (Hall a). apply Nat.le_ngt in Hall. apply Hall, Helem. left.
    + intros l' [= <-]. split; [exact Hnd | exact Helem].
    + intros v Hv. eexists. split; [reflexivity |]. apply Helem. lia.
Qed.

Lemma wf_three_and_one : wf three_and_one.
Proof. apply (bool_decide_unpack _). vm_compute. exact I. Qed.

Lemma contributing_authors_spec_witness :
  wf three_and_one ∧
  ∃ l, Magazine.contributing_authors 0 three_and_one = Ok (Some l) ∧
       VAuthor 0 ∈ l.
Proof.
  split; [apply wf_three_and_one |].
  destruct (contributing_authors_spec three_and_one 0 wf_three_and_one)
    as (arts & res & _ & _ & Hres & _ & _ & Hthree).
  destruct (Hthree (VAuthor 0) eq_refl) as (l & -> & Hin).
  exists l. split; assumption.
Defined.

(** ** The magazine with the most articles *)

Lemma magazines_in_Magazine st v :
  wf st → v ∈ magazines_in st →
  ∃ m, v = VMagazine m ∧ m < length (magazines st).
Proof.
  intros Hwf (r & _ & Hr)%list_elem_of_omap. unfold magazine_of in Hr.
  destruct (articles st !! r) as [o |] eqn:Ho; [| discriminate].
  injection Hr as <-.
  destruct Hwf as (_ & _ & Ha & _).
  destruct (Forall_lookup_1 _ _ _ _ Ha Ho) as (_ & Hm & _).
  destruct (art_magazine o); try contradiction. eauto.
Qed.

(** On a non-empty list of magazines, [top_of] returns the magazine that
    occurs most often, and among those that occur equally often the one
    whose first occurrence comes first. *)
Lemma top_of_spec mags :
  mags ≠ [] →
  ∃ v i, top_of mags = Ok (Some v) ∧ index_of v mags = Some i ∧
    (∀ v', occurrences v' mags ≤ occurrences v mags) ∧
    (∀ v', v' ≠ v → occurrences v' mags = occurrences v mags →
       ∃ j, index_of v' mags = Some j ∧ i < j).
Proof.
  intros Hne. unfold top_of.
  destruct mags as [| x mags0] eqn:Emags; [contradiction |].
  rewrite <- Emags in *. clear Hne.
  assert (Hx : x ∈ dict_keys (count_keys mags)).
  { apply count_keys_elem. rewrite Emags. left. }
  destruct (py_max (λ k, dict_get (count_keys mags) k 0)
              (dict_keys (count_keys mags))) as [v | e] eqn:Emax.
  2:{ destruct (dict_keys (count_keys mags)); [by apply elem_of_nil in Hx |].
      discriminate. }
  apply py_max_spec in Emax as (pre & post & Hkeys & Hpre & Hpost).
  setoid_rewrite count_keys_get in Hpre. setoid_rewrite count_keys_get in Hpost.
  assert (Hv : v ∈ mags).
  { apply count_keys_elem. rewrite Hkeys. apply elem_of_app. right. left. }
  destruct (proj1 (index_of_elem v mags) Hv) as [i Hi].
  exists v, i. split; [reflexivity |]. split; [exact Hi |]. split.
  - intros v'. destruct (decide (v' ∈ mags)) as [Hin | Hin].
    + apply count_keys_elem in Hin. rewrite Hkeys in Hin.
      apply elem_of_app in Hin as [Hin | Hin].
      * apply Nat.lt_le_incl. by apply Hpre.
      * apply elem_of_cons in Hin as [-> | Hin]; [lia | by apply Hpost].
    + rewrite <- occurrences_pos in Hin. lia.
  - intros v' Hneq Hocc.
    assert (Hin : v' ∈ mags).
    { apply occurrences_pos. rewrite Hocc. by apply occurrences_pos. }
    apply count_keys_elem in Hin. rewrite Hkeys in Hin.
    apply elem_of_app in Hin as [Hin | Hin].
    + apply Hpre in Hin. lia.
    + apply elem_of_cons in Hin as [-> | Hin]; [contradiction |].
      destruct (count_keys_order _ _ _ _ _ Hkeys Hin) as (i' & j & Hi' & Hj & Hlt).
      exists j. split; [exact Hj |]. congruence.
Qed.

(** C4: [Magazine.top_publisher()] returns [None] exactly when
    [Article.all] is empty.  Otherwise it returns a Magazine that is the
    magazine of at least one registered article and of at least as many as
    any other.  When one magazine has 3 registered articles, another has 1
    and there is no third, it returns the one with 3. *)
Theorem top_publisher_spec st :
  wf st →
  (Magazine.top_publisher st = Ok None ↔ Article_all st = []) ∧
  (Article_all st ≠ [] →
     ∃ m, Magazine.top_publisher st = Ok (Some (VMagazine m)) ∧
       m < length (magazines st) ∧
       VMagazine m ∈ magazines_in st ∧
       ∀ v, occurrences v (magazines_in st)
            ≤ occurrences (VMagazine m) (magazines_in st)) ∧
  (∀ A B,
     occurrences A (magazines_in st) = 3 →
     occurrences B (magazines_in st) = 1 →
     (∀ v, v ∈ magazines_in st → v = A ∨ v = B) →
     Magazine.top_publisher st = Ok (Some A)).
Proof.
  intros Hwf. rewrite top_publisher_ok by exact Hwf.
  pose proof (magazines_in_nil st Hwf) as Hnil.
  assert (Hsome : magazines_in st ≠ [] →
    ∃ v, top_of (magazines_in st) = Ok (Some v) ∧ v ∈ magazines_in st ∧
      ∀ v', occurrences v' (magazines_in st) ≤ occurrences v (magazines_in st)).
  { intros Hne. destruct (top_of_spec _ Hne) as (v & i & Htop & Hi & Hmax & _).
    exists v. split; [exact Htop |]. split; [| exact Hmax].
    apply index_of_elem. eauto. }
  split; [| split].
  - split.
    + intros Htop. apply Hnil.
      destruct (magazines_in st) as [| x l] eqn:E; [reflexivity |].
      destruct Hsome as (v & Hv & _); [discriminate |]. congruence.
    + intros Hempty. apply Hnil in Hempty. rewrite Hempty. reflexivity.
  - intros Hne.
    destruct Hsome as (v & Htop & Hin & Hmax); [by rewrite Hnil |].
    destruct (magazines_in_Magazine st v Hwf Hin) as (m & -> & Hm).
    exists m. auto.
  - intros A B HA HB Hall.
    destruct Hsome as (v & Htop & Hin & Hmax).
    { intros E. rewrite E in HA. discriminate. }
    rewrite Htop. destruct (Hall v Hin) as [-> | ->]; [reflexivity |].
    specialize (Hmax A). lia.
Qed.

Lemma top_publisher_spec_witness :
  wf three_and_one ∧
  Magazine.top_publisher three_and_one = Ok (Some (VMagazine 0)).
Proof.
  split; [apply wf_three_and_one |].
  refine (proj2 (proj2 (top_publisher_spec three_and_one wf_three_and_one))
            (VMagazine 0) (VMagazine 1) eq_refl eq_refl _).
  intros v Hv. vm_compute in Hv.
  repeat (apply elem_of_cons in Hv as [-> | Hv]; [auto |]).
  by apply elem_of_nil in Hv.
Defined.

(** C10: on a non-empty registry [Magazine.top_publisher()] returns, among
    the magazines with the greatest number of registered articles, the one
    whose first article comes first in [Article.all]; the result is the
    same in any two states whose registries list the same magazines in the
    same order. *)
Theorem top_publisher_first_seen st :
  wf st → Article_all st ≠ [] →
  ∃ v i,
    Magazine.top_publisher st = Ok (Some v) ∧
    index_of v (magazines_in st) = Some i ∧
    (∀ v', occurrences v' (magazines_in st) ≤ occurrences v (magazines_in st)) ∧
    (∀ v', v' ≠ v →
       occurrences v' (magazines_in st) = occurrences v (magazines_in st) →
       ∃ j, index_of v' (magazines_in st) = Some j ∧ i < j) ∧
    (∀ st', wf st' → magazines_in st' = magazines_in st →
       Magazine.top_publisher st' = Magazine.top_publisher st).
Proof.
  intros Hwf Hne.
  assert (Hmags : magazines_in st ≠ []) by (by rewrite magazines_in_nil).
  destruct (top_of_spec _ Hmags) as (v & i & Htop & Hi & Hmax & Hfirst).
  exists v, i. rewrite top_publisher_ok by exact Hwf.
  repeat split; try assumption.
  intros st' Hwf' Hsame. rewrite top_publisher_ok by exact Hwf'.
  by rewrite Hsame.
Qed.

Lemma wf_two_and_two : wf two_and_two.
Proof. apply (bool_decide_unpack _). vm_compute. exact I. Qed.

Lemma top_publisher_first_seen_witness :
  wf two_and_two ∧ Article_all two_and_two ≠ [] ∧
  ∃ v i,
    Magazine.top_publisher two_and_two = Ok (Some v) ∧
    index_of v (magazines_in two_and_two) = Some i ∧
    ∀ v', v' ≠ v →
      occurrences v' (magazines_in two_and_two)
        = occurrences v (magazines_in two_and_two) →
      ∃ j, index_of v' (magazines_in two_and_two) = Some j ∧ i < j.
Proof.
  assert (Hne : Article_all two_and_two ≠ []) by (vm_compute; discriminate).
  split; [apply wf_two_and_two |]. split; [exact Hne |].
  destruct (top_publisher_first_seen two_and_two wf_two_and_two Hne)
    as (v & i & Htop & Hi & _ & Hfirst & _).
  exists v, i. auto.
Defined.

Example top_publisher_of_initial : Magazine.top_publisher initial = Ok None.
Proof. reflexivity. Qed.

Example top_publisher_of_a_tie :
  magazines_in two_and_two =
    [VMagazine 1; VMagazine 0; VMagazine 0; VMagazine 1] ∧
  Magazine.top_publisher two_and_two = Ok (Some (VMagazine 1)).
Proof. split; reflexivity. Qed.

(** ** The categories an author writes in *)

Lemma category_at_live st r :
  wf st → r < length (articles st) →
  ∃ o m c, articles st !! r = Some o ∧ art_magazine o = VMagazine m ∧
    magazines st !! m = Some c ∧ category_at st r = Some (mag_category c).
Proof.
  intros Hwf Hr. destruct (lookup_lt_is_Some_2 _ _ Hr) as [o Ho].
  destruct Hwf as (_ & _ & Ha & _).
  destruct (Forall_lookup_1 _ _ _ _ Ha Ho) as (_ & Hm & _).
  unfold category_at, magazine_of. rewrite Ho. cbn.
  destruct (art_magazine o) as [| | | |m|] eqn:Em; try contradiction.
  destruct (lookup_lt_is_Some_2 _ _ Hm) as [c Hc].
  exists o, m, c. rewrite Hc. auto.
Qed.

Lemma py_map_category st l :
  wf st → Forall (λ r, r < length (articles st)) l →
  py_map (λ article, m ← Article.magazine article st; Author.category_of m st) l
  = Ok (omap (category_at st) l).
Proof.
  intros Hwf. induction 1 as [| r l Hr _ IH]; [reflexivity |].
  cbn [py_map]. rewrite IH.
  destruct (category_at_live st r Hwf Hr) as (o & m & c & Ho & Hm & Hc & Hcat).
  cbn. rewrite Hcat.
  unfold Article.magazine, get_Article. rewrite Ho. cbn. rewrite Hm. cbn.
  unfold Magazine.category, get_Magazine. rewrite Hc. reflexivity.
Qed.

(** C9: [author.topic_areas()] returns [None] exactly when no registered
    article has this author.  Otherwise it returns the categories of the
    magazines of the author's articles, each one once; with exactly one
    article the result is the one category of that article's magazine. *)
Theorem topic_areas_spec `{SetOrder} st self :
  wf st →
  ∃ arts res,
    Author.articles self st = Ok arts ∧
    arts = articles_by st self ∧
    Author.topic_areas self st = Ok res ∧
    (res = None ↔ arts = []) ∧
    (∀ l, res = Some l →
       NoDup l ∧ ∀ c, c ∈ l ↔ ∃ r, r ∈ arts ∧ category_at st r = Some c) ∧
    (∀ r, arts = [r] → ∃ c, category_at st r = Some c ∧ res = Some [c]).
Proof.
  intros Hwf. exists (articles_by st self).
  pose proof (articles_by_live st self Hwf) as Hlive.
  unfold Author.topic_areas. rewrite Author_articles_ok by exact Hwf. cbn.
  destruct (articles_by st self) as [| r0 l0] eqn:E.
  - exists None. repeat split; discriminate.
  - rewrite <- E in *. rewrite py_map_category by assumption. cbn.
    exists (Some (list_set (omap (category_at st) (articles_by st self)))).
    split; [reflexivity |]. split; [reflexivity |].
    split; [by rewrite E |]. split; [| split].
    + split; [discriminate | rewrite E; discriminate].
    + intros l [= <-]. split.
      * rewrite list_set_perm. apply NoDup_remove_dups.
      * intros c. rewrite list_set_perm, elem_of_remove_dups.
        apply list_elem_of_omap.
    + intros r Hr. rewrite Hr in *.
      apply Forall_cons in Hlive as [Hlt _].
      destruct (category_at_live st r Hwf Hlt) as (o & m & c & _ & _ & _ & Hcat).
      exists (mag_category c). split; [exact Hcat |].
      cbn. rewrite Hcat. cbn. f_equal.
      apply Permutation_singleton_r. rewrite list_set_perm.
      reflexivity.
Qed.

Lemma topic_areas_spec_witness :
  wf three_and_one ∧
  ∃ l, @Author.topic_areas remove_dups_order 0 three_and_one = Ok (Some l) ∧
       VStr "Design" ∈ l ∧ VStr "Fashion" ∈ l.
Proof.
  split; [apply wf_three_and_one |].
  destruct (@topic_areas_spec remove_dups_order three_and_one 0 wf_three_and_one)
    as (arts & res & Harts & _ & Hres & Hnone & Hsome & _).
  injection Harts as <-.
  destruct res as [l |]; [| destruct Hnone as [Hnone _]; discriminate (Hnone eq_refl)].
  exists l. split; [exact Hres |].
  destruct (Hsome l eq_refl) as [_ Hin].
  split; apply Hin.
  - exists 3. split; [| reflexivity]. vm_compute. repeat constructor.
  - exists 0. split; [| reflexivity]. vm_compute. repeat constructor.
Defined.

(** * Further properties of the three classes *)

(** ** The effect of a call *)

Lemma exec_effect st c : effect st (exec c st).2.
Proof.
  destruct c as [n | n c | a m t | s m t | s v | s v | s v | s v | s v | s v];
    cbn [exec]; rewrite ?bind_unit_state; cbn [snd]; try apply effect_none.
  - destruct (Author_args_ok n) eqn:E.
    + rewrite Author_init_success by exact E. apply effect_Author.
    + destruct (Author_init_failure _ st E) as [msg ->]. apply effect_none.
  - destruct (Magazine_args_ok n c) eqn:E.
    + rewrite Magazine_init_success by exact E. apply effect_Magazine.
    + destruct (Magazine_init_failure _ _ st E) as [msg ->]. apply effect_none.
  - destruct (Article_args_ok a m t) eqn:E.
    + rewrite Article_init_success by exact E. apply effect_Article.
    + destruct (Article_init_failure _ _ _ st E) as [msg ->]. apply effect_none.
  - unfold Author.add_article.
    destruct (Article_args_ok (VAuthor s) m t) eqn:E.
    + rewrite Article_init_success by exact E. apply effect_Article.
    + destruct (Article_init_failure _ _ _ st E) as [msg ->]. apply effect_none.
  - unmonad. destruct v; simpl; try apply effect_none.
    destruct (articles st !! s) as [o |] eqn:Ho; simpl; [| apply effect_none].
    by eapply (effect_set_Article st s o).
  - unmonad. destruct v; simpl; try apply effect_none.
    destruct (articles st !! s) as [o |] eqn:Ho; simpl; [| apply effect_none].
    by eapply (effect_set_Article st s o).
  - unmonad. destruct (Magazine.name_ok v); [| apply effect_none].
    destruct (magazines st !! s) as [o |] eqn:Ho; simpl; [| apply effect_none].
    by eapply (effect_set_Magazine st s o).
  - unmonad. destruct (Magazine.category_ok v); [| apply effect_none].
    destruct (magazines st !! s) as [o |] eqn:Ho; simpl; [| apply effect_none].
    by eapply (effect_set_Magazine st s o).
Qed.

Lemma effect_lengths st st' :
  effect st st' →
  length (authors st) ≤ length (authors st') ∧
  length (magazines st) ≤ length (magazines st') ∧
  length (articles st) ≤ length (articles st').
Proof.
  destruct 1; simpl; rewrite ?length_app, ?length_insert; simpl; lia.
Qed.

Lemma effect_registered st st' : effect st st' → registered st → registered st'.
Proof.
  unfold registered. destruct 1; simpl; intros [Ha Hm];
    rewrite ?length_app, ?length_insert; simpl;
    rewrite ?Nat.add_1_r, ?seq_S; simpl; rewrite <- ?Ha, <- ?Hm; auto.
Qed.

Lemma run_snoc cs c st : run (cs ++ [c]) st = (exec c (run cs st)).2.
Proof. unfold run. by rewrite foldl_snoc. Qed.

Lemma run_lengths cs st :
  length (authors st) ≤ length (authors (run cs st)) ∧
  length (magazines st) ≤ length (magazines (run cs st)) ∧
  length (articles st) ≤ length (articles (run cs st)).
Proof.
  induction cs as [| c cs IH] using rev_ind; [cbn; lia |].
  rewrite run_snoc.
  pose proof (effect_lengths _ _ (exec_effect (run cs st) c)). lia.
Qed.

(** X1: in every state that a client program can produce, [Article.all]
    is the list of all articles ever constructed and [Magazine.all] the
    list of all magazines ever constructed, each instance once and in the
    order of construction. *)
Theorem registries_list_the_instances st :
  reachable st →
  Article_all st = seq 0 (length (articles st)) ∧
  Magazine_all st = seq 0 (length (magazines st)) ∧
  NoDup (Article_all st) ∧ NoDup (Magazine_all st) ∧
  (∀ r, r ∈ Article_all st ↔ r < length (articles st)) ∧
  (∀ r, r ∈ Magazine_all st ↔ r < length (magazines st)).
Proof.
  intros Hreach.
  assert (Hreg : registered st).
  { induction Hreach as [| st c _ IH _]; [split; reflexivity |].
    eapply effect_registered; [apply exec_effect | exact IH]. }
  destruct Hreg as [Ha Hm]. rewrite Ha, Hm.
  repeat split; try apply NoDup_seq;
    rewrite elem_of_seq; lia.
Qed.

Lemma reachable_three_and_one : reachable three_and_one.
Proof.
  unfold three_and_one.
  do 4 (apply reachable_call; [| vm_compute; repeat split; lia]).
  apply reachable_newsstand.
Qed.

Lemma registries_list_the_instances_witness :
  reachable three_and_one ∧
  Article_all three_and_one = [0; 1; 2; 3] ∧
  Magazine_all three_and_one = [0; 1].
Proof.
  split; [apply reachable_three_and_one |].
  destruct (registries_list_the_instances three_and_one reachable_three_and_one)
    as (Ha & Hm & _).
  split; [exact Ha | exact Hm].
Defined.

(** X2: whatever program a client runs, an article that exists keeps its
    title and an author that exists keeps its name: no call of the three
    classes writes [_title] or an author's [_name] after construction. *)
Theorem title_and_name_survive_programs cs st :
  (∀ self, self < length (articles st) →
     Article.title self (run cs st) = Article.title self st) ∧
  (∀ self, self < length (authors st) →
     Author.name self (run cs st) = Author.name self st).
Proof.
  induction cs as [| c cs [IHt IHn]] using rev_ind; [split; reflexivity |].
  rewrite run_snoc. pose proof (run_lengths cs st) as (Hla & _ & Hlr).
  split; intros self Hlt.
  - rewrite title_is_immutable by lia. by apply IHt.
  - rewrite name_is_immutable by lia. by apply IHn.
Qed.

(** ** Assignments to the author and the magazine of an article *)

Lemma set_author_rejected st self v :
  isinstance_Author v = false →
  Article.set_author self v st =
    (Raise (Exception "Author must be an instance of Author"), st).
Proof. intros H. unmonad. rewrite H. reflexivity. Qed.

Lemma set_author_accepted st self o v :
  isinstance_Author v = true → articles st !! self = Some o →
  Article.set_author self v st =
    (Ok tt,
     set_Article st self
       {| art_author := v; art_magazine := art_magazine o;
          art_title := art_title o |}).
Proof. intros H Ho. unmonad. rewrite H. simpl. rewrite Ho. reflexivity. Qed.

Lemma set_magazine_rejected st self v :
  isinstance_Magazine v = false →
  Article.set_magazine self v st =
    (Raise (Exception "Magazine must be an instance of Magazine"), st).
Proof. intros H. unmonad. rewrite H. reflexivity. Qed.

Lemma set_magazine_accepted st self o v :
  isinstance_Magazine v = true → articles st !! self = Some o →
  Article.set_magazine self v st =
    (Ok tt,
     set_Article st self
       {| art_author := art_author o; art_magazine := v;
          art_title := art_title o |}).
Proof. intros H Ho. unmonad. rewrite H. simpl. rewrite Ho. reflexivity. Qed.

Lemma lookup_set_Article st self o r :
  self < length (articles st) →
  articles (set_Article st self o) !! r =
    if decide (r = self) then Some o else articles st !! r.
Proof.
  intros Hlt. simpl. destruct (decide (r = self)) as [-> | Hne].
  - by apply list_lookup_insert_eq.
  - by apply list_lookup_insert_ne.
Qed.

(** X3: [article.author = v] raises the validation error and changes
    nothing when [v] is not an Author; otherwise it returns, the article
    reads back [v] as its author, its magazine and title are what they
    were, and no other article, no registry and no other instance is
    changed. *)
Theorem Article_author_setter_spec st self o v :
  articles st !! self = Some o →
  (isinstance_Author v = false →
     Article.set_author self v st =
       (Raise (Exception "Author must be an instance of Author"), st)) ∧
  (isinstance_Author v = true →
     ∃ st', Article.set_author self v st = (Ok tt, st') ∧
       Article.author self st' = Ok v ∧
       Article.magazine self st' = Ok (art_magazine o) ∧
       Article.title self st' = Ok (art_title o) ∧
       (∀ r, r ≠ self → articles st' !! r = articles st !! r) ∧
       Article_all st' = Article_all st ∧ Magazine_all st' = Magazine_all st ∧
       authors st' = authors st ∧ magazines st' = magazines st).
Proof.
  intros Ho. split; [apply set_author_rejected |]. intros Hv.
  assert (Hlt : self < length (articles st)) by (by eapply lookup_lt_Some).
  eexists. split; [by apply set_author_accepted |].
  unfold Article.author, Article.magazine, Article.title, get_Article.
  rewrite lookup_set_Article, decide_True by (exact Hlt || reflexivity).
  repeat split. intros r Hne.
  rewrite lookup_set_Article by exact Hlt. by rewrite decide_False.
Qed.

Lemma Article_author_setter_spec_witness :
  articles three_and_one !! 3 =
    Some {| art_author := VAuthor 0; art_magazine := VMagazine 1;
            art_title := VStr "Chairs" |} ∧
  Article.set_author 3 (VStr "Ann") three_and_one =
    (Raise (Exception "Author must be an instance of Author"), three_and_one).
Proof.
  split; [reflexivity |].
  exact (proj1 (Article_author_setter_spec three_and_one 3 _ (VStr "Ann") eq_refl)
           eq_refl).
Defined.

(** X4: [article.magazine = v] raises the validation error and changes
    nothing when [v] is not a Magazine; otherwise it returns, the article
    reads back [v] as its magazine, its author and title are what they
    were, and nothing else is changed. *)
Theorem Article_magazine_setter_spec st self o v :
  articles st !! self = Some o →
  (isinstance_Magazine v = false →
     Article.set_magazine self v st =
       (Raise (Exception "Magazine must be an instance of Magazine"), st)) ∧
  (isinstance_Magazine v = true →
     ∃ st', Article.set_magazine self v st = (Ok tt, st') ∧
       Article.magazine self st' = Ok v ∧
       Article.author self st' = Ok (art_author o) ∧
       Article.title self st' = Ok (art_title o) ∧
       (∀ r, r ≠ self → articles st' !! r = articles st !! r) ∧
       Article_all st' = Article_all st ∧ Magazine_all st' = Magazine_all st ∧
       authors st' = authors st ∧ magazines st' = magazines st).
Proof.
  intros Ho. split; [apply set_magazine_rejected |]. intros Hv.
  assert (Hlt : self < length (articles st)) by (by eapply lookup_lt_Some).
  eexists. split; [by apply set_magazine_accepted |].
  unfold Article.author, Article.magazine, Article.title, get_Article.
  rewrite lookup_set_Article, decide_True by (exact Hlt || reflexivity).
  repeat split. intros r Hne.
  rewrite lookup_set_Article by exact Hlt. by rewrite decide_False.
Qed.

Lemma Article_magazine_setter_spec_witness :
  articles three_and_one !! 3 =
    Some {| art_author := VAuthor 0; art_magazine := VMagazine 1;
            art_title := VStr "Chairs" |} ∧
  ∃ st', Article.set_magazine 3 (VMagazine 0) three_and_one = (Ok tt, st') ∧
         Article.magazine 3 st' = Ok (VMagazine 0).
Proof.
  split; [reflexivity |].
  destruct (proj2 (Article_magazine_setter_spec three_and_one 3 _ (VMagazine 0) eq_refl)
              eq_refl) as (st' & Hset & Hmag & _).
  exists st'. split; assumption.
Defined.

Lemma wf_self_live st self :
  wf st → self ∈ Article_all st → self < length (articles st).
Proof.
  intros Hwf Hin. pose proof (wf_registry st Hwf) as Hr.
  by eapply Forall_forall in Hr.
Qed.

(** X5: after [article.author = b] on a registered article, the article
    is in [b.articles()], which otherwise holds what it held, it is gone
    from the [articles()] of every other author, whose other articles stay
    in place, and the [articles()] of every magazine are what they were. *)
Theorem author_assignment_moves_article st self b :
  wf st → self ∈ Article_all st → b < length (authors st) →
  ∃ st', Article.set_author self (VAuthor b) st = (Ok tt, st') ∧ wf st' ∧
    (∃ l, Author.articles b st' = Ok l ∧
          ∀ r, r ∈ l ↔ r = self ∨ r ∈ articles_by st b) ∧
    (∀ a, a ≠ b →
       Author.articles a st' = Ok (filter (λ r, r ≠ self) (articles_by st a))) ∧
    (∀ m, Magazine.articles m st' = Magazine.articles m st).
Proof.
  intros Hwf Hin Hb. pose proof (wf_self_live st self Hwf Hin) as Hlt.
  destruct (lookup_lt_is_Some_2 _ _ Hlt) as [o Ho].
  pose proof (wf_set_author st self (VAuthor b) Hwf Hb) as Hwf'.
  rewrite (set_author_accepted st self o (VAuthor b) eq_refl Ho) in *.
  cbn [snd] in Hwf'. eexists. split; [reflexivity |]. split; [exact Hwf' |].
  set (o' := {| art_author := VAuthor b; art_magazine := art_magazine o;
                art_title := art_title o |}) in *.
  assert (Hauth : ∀ r, author_of (set_Article st self o') r =
            if decide (r = self) then Some (VAuthor b) else author_of st r).
  { intros r. unfold author_of. rewrite lookup_set_Article by exact Hlt.
    by destruct (decide (r = self)). }
  assert (Hmag : ∀ r, magazine_of (set_Article st self o') r = magazine_of st r).
  { intros r. unfold magazine_of. rewrite lookup_set_Article by exact Hlt.
    destruct (decide (r = self)) as [-> | _]; [by rewrite Ho | reflexivity]. }
  split; [| split].
  - eexists. split; [by apply Author_articles_ok |]. intros r.
    unfold articles_by. rewrite !list_elem_of_filter. simpl. rewrite Hauth.
    destruct (decide (r = self)) as [-> | Hne]; [tauto |].
    split; [tauto |]. intros [? | ?]; [contradiction | assumption].
  - intros a Hne. rewrite Author_articles_ok by exact Hwf'. f_equal.
    unfold articles_by. rewrite list_filter_filter. simpl.
    apply list_filter_iff. intros r. rewrite Hauth.
    destruct (decide (r = self)) as [-> | Hr]; [| tauto].
    split; [intros [= ?]; congruence | tauto].
  - intros m. rewrite !Magazine_articles_ok by assumption. f_equal.
    unfold articles_in. simpl. apply list_filter_iff. intros r.
    by rewrite Hmag.
Qed.

Lemma author_assignment_moves_article_witness :
  wf three_and_one ∧ 3 ∈ Article_all three_and_one ∧
  0 < length (authors three_and_one) ∧
  ∃ st', Article.set_author 3 (VAuthor 0) three_and_one = (Ok tt, st') ∧
         Magazine.articles 1 st' = Ok [3].
Proof.
  assert (Hin : 3 ∈ Article_all three_and_one) by (vm_compute; repeat constructor).
  assert (Hlt : 0 < length (authors three_and_one)) by (vm_compute; lia).
  split; [apply wf_three_and_one |]. split; [exact Hin |]. split; [exact Hlt |].
  destruct (author_assignment_moves_article three_and_one 3 0
              wf_three_and_one Hin Hlt) as (st' & Hset & _ & _ & _ & Hmag).
  exists st'. split; [exact Hset |]. rewrite Hmag. reflexivity.
Defined.

(** X6: after [article.magazine = m] on a registered article, the article
    is in [m.articles()], which otherwise holds what it held, it is gone
    from the [articles()] of every other magazine, whose other articles
    stay in place, and the [articles()] of every author are what they
    were. *)
Theorem magazine_assignment_moves_article st self m :
  wf st → self ∈ Article_all st → m < length (magazines st) →
  ∃ st', Article.set_magazine self (VMagazine m) st = (Ok tt, st') ∧ wf st' ∧
    (∃ l, Magazine.articles m st' = Ok l ∧
          ∀ r, r ∈ l ↔ r = self ∨ r ∈ articles_in st m) ∧
    (∀ m', m' ≠ m →
       Magazine.articles m' st' =
         Ok (filter (λ r, r ≠ self) (articles_in st m'))) ∧
    (∀ a, Author.articles a st' = Author.articles a st).
Proof.
  intros Hwf Hin Hm. pose proof (wf_self_live st self Hwf Hin) as Hlt.
  destruct (lookup_lt_is_Some_2 _ _ Hlt) as [o Ho].
  pose proof (wf_set_magazine st self (VMagazine m) Hwf Hm) as Hwf'.
  rewrite (set_magazine_accepted st self o (VMagazine m) eq_refl Ho) in *.
  cbn [snd] in Hwf'. eexists. split; [reflexivity |]. split; [exact Hwf' |].
  set (o' := {| art_author := art_author o; art_magazine := VMagazine m;
                art_title := art_title o |}) in *.
  assert (Hmag : ∀ r, magazine_of (set_Article st self o') r =
            if decide (r = self) then Some (VMagazine m) else magazine_of st r).
  { intros r. unfold magazine_of. rewrite lookup_set_Article by exact Hlt.
    by destruct (decide (r = self)). }
  assert (Hauth : ∀ r, author_of (set_Article st self o') r = author_of st r).
  { intros r. unfold author_of. rewrite lookup_set_Article by exact Hlt.
    destruct (decide (r = self)) as [-> | _]; [by rewrite Ho | reflexivity]. }
  split; [| split].
  - eexists. split; [by apply Magazine_articles_ok |]. intros r.
    unfold articles_in. rewrite !list_elem_of_filter. simpl. rewrite Hmag.
    destruct (decide (r = self)) as [-> | Hne]; [tauto |].
    split; [tauto |]. intros [? | ?]; [contradiction | assumption].
  - intros m' Hne. rewrite Magazine_articles_ok by exact Hwf'. f_equal.
    unfold articles_in. rewrite list_filter_filter. simpl.
    apply list_filter_iff. intros r. rewrite Hmag.
    destruct (decide (r = self)) as [-> | Hr]; [| tauto].
    split; [intros [= ?]; congruence | tauto].
  - intros a. rewrite !Author_articles_ok by assumption. f_equal.
    unfold articles_by. simpl. apply list_filter_iff. intros r.
    by rewrite Hauth.
Qed.

Lemma magazine_assignment_moves_article_witness :
  wf three_and_one ∧ 3 ∈ Article_all three_and_one ∧
  0 < length (magazines three_and_one) ∧
  ∃ st', Article.set_magazine 3 (VMagazine 0) three_and_one = (Ok tt, st') ∧
         Magazine.articles 1 st' = Ok [].
Proof.
  assert (Hin : 3 ∈ Article_all three_and_one) by (vm_compute; repeat constructor).
  assert (Hlt : 0 < length (magazines three_and_one)) by (vm_compute; lia).
  split; [apply wf_three_and_one |]. split; [exact Hin |]. split; [exact Hlt |].
  destruct (magazine_assignment_moves_article three_and_one 3 0
              wf_three_and_one Hin Hlt) as (st' & Hset & _ & _ & Hother & _).
  exists st'. split; [exact Hset |]. by rewrite (Hother 1).
Defined.

(** ** The effect of a construction on [articles()] *)

Lemma filter_ext_elem {A} (P Q : A → Prop)
    `{∀ x, Decision (P x)} `{∀ x, Decision (Q x)} (l : list A) :
  (∀ x, x ∈ l → (P x ↔ Q x)) → filter P l = filter Q l.
Proof.
  induction l as [| x l IH]; intros Hext; [reflexivity |].
  rewrite !filter_cons.
  rewrite IH by (intros y Hy; apply Hext; by right).
  destruct (decide (P x)) as [HP | HP], (decide (Q x)) as [HQ | HQ];
    try reflexivity; exfalso;
    (apply (Hext x (list_elem_of_here _ _)) in HP
     + apply (Hext x (list_elem_of_here _ _)) in HQ); contradiction.
Qed.

Lemma lookup_with_Article st o r :
  articles (with_Article st o) !! r =
    if decide (r = length (articles st)) then Some o else articles st !! r.
Proof.
  simpl. destruct (decide (r = length (articles st))) as [-> | Hne].
  - by apply list_lookup_middle.
  - destruct (decide (r < length (articles st))).
    + by rewrite lookup_app_l.
    + rewrite !lookup_ge_None_2; [reflexivity | lia |].
      rewrite length_app. simpl. lia.
Qed.

Lemma articles_by_with_Article st o a :
  wf st →
  articles_by (with_Article st o) a =
    articles_by st a ++
    (if decide (art_author o = VAuthor a) then [length (articles st)] else []).
Proof.
  intros Hwf. unfold articles_by. cbn [Article_all with_Article].
  rewrite filter_app. f_equal.
  - apply filter_ext_elem. intros r Hr.
    apply (wf_self_live st r Hwf) in Hr.
    unfold author_of. rewrite lookup_with_Article.
    rewrite decide_False by lia. reflexivity.
  - assert (Hnew : author_of (with_Article st o) (length (articles st))
                   = Some (art_author o)).
    { unfold author_of. rewrite lookup_with_Article.
      destruct (decide (length (articles st) = length (articles st)));
        [reflexivity | contradiction]. }
    rewrite filter_cons, filter_nil, Hnew.
    destruct (decide (art_author o = VAuthor a)) as [E | E].
    + rewrite decide_True by congruence. reflexivity.
    + rewrite decide_False by congruence. reflexivity.
Qed.

Lemma articles_in_with_Article st o m :
  wf st →
  articles_in (with_Article st o) m =
    articles_in st m ++
    (if decide (art_magazine o = VMagazine m) then [length (articles st)] else []).
Proof.
  intros Hwf. unfold articles_in. cbn [Article_all with_Article].
  rewrite filter_app. f_equal.
  - apply filter_ext_elem. intros r Hr.
    apply (wf_self_live st r Hwf) in Hr.
    unfold magazine_of. rewrite lookup_with_Article.
    rewrite decide_False by lia. reflexivity.
  - assert (Hnew : magazine_of (with_Article st o) (length (articles st))
                   = Some (art_magazine o)).
    { unfold magazine_of. rewrite lookup_with_Article.
      destruct (decide (length (articles st) = length (articles st)));
        [reflexivity | contradiction]. }
    rewrite filter_cons, filter_nil, Hnew.
    destruct (decide (art_magazine o = VMagazine m)) as [E | E].
    + rewrite decide_True by congruence. reflexivity.
    + rewrite decide_False by congruence. reflexivity.
Qed.

(** X7: a successful [Article(a, m, title)] puts the new article at the
    end of [a.articles()] and of [m.articles()] and leaves the
    [articles()] of every other author and of every other magazine as
    they were. *)
Theorem Article_init_extends_articles st a m s :
  wf st → a < length (authors st) → m < length (magazines st) →
  5 ≤ String.length s ≤ 50 →
  ∃ new st',
    Article.__init__ (VAuthor a) (VMagazine m) (VStr s) st = (Ok new, st') ∧
    wf st' ∧
    Author.articles a st' = Ok (articles_by st a ++ [new]) ∧
    Magazine.articles m st' = Ok (articles_in st m ++ [new]) ∧
    (∀ a', a' ≠ a → Author.articles a' st' = Author.articles a' st) ∧
    (∀ m', m' ≠ m → Magazine.articles m' st' = Magazine.articles m' st).
Proof.
  intros Hwf Ha Hm Hs.
  assert (Hok : Article_args_ok (VAuthor a) (VMagazine m) (VStr s) = true).
  { unfold Article_args_ok. simpl. by apply leb_range_true. }
  pose proof (wf_Article_init st (VAuthor a) (VMagazine m) (VStr s) Hwf Ha Hm)
    as Hwf'.
  rewrite Article_init_success in * by exact Hok. cbn [snd] in Hwf'.
  eexists _, _. split; [reflexivity |]. split; [exact Hwf' |].
  rewrite !Author_articles_ok, !Magazine_articles_ok by assumption.
  rewrite articles_by_with_Article, articles_in_with_Article by exact Hwf.
  cbn [art_author art_magazine]. rewrite !decide_True by reflexivity.
  split; [reflexivity |]. split; [reflexivity |]. split.
  - intros a' Hne. rewrite !Author_articles_ok by assumption.
    rewrite articles_by_with_Article by exact Hwf. cbn [art_author].
    rewrite decide_False by congruence. by rewrite app_nil_r.
  - intros m' Hne. rewrite !Magazine_articles_ok by assumption.
    rewrite articles_in_with_Article by exact Hwf. cbn [art_magazine].
    rewrite decide_False by congruence. by rewrite app_nil_r.
Qed.

Lemma Article_init_extends_articles_witness :
  wf three_and_one ∧ 0 < length (authors three_and_one) ∧
  1 < length (magazines three_and_one) ∧ 5 ≤ String.length "Lamps" ≤ 50 ∧
  ∃ new st',
    Article.__init__ (VAuthor 0) (VMagazine 1) (VStr "Lamps") three_and_one
      = (Ok new, st') ∧
    Magazine.articles 1 st' = Ok [3; new].
Proof.
  assert (Ha : 0 < length (authors three_and_one)) by (vm_compute; lia).
  assert (Hm : 1 < length (magazines three_and_one)) by (vm_compute; lia).
  assert (Hs : 5 ≤ String.length "Lamps" ≤ 50) by (vm_compute; lia).
  split; [apply wf_three_and_one |]. split; [exact Ha |]. split; [exact Hm |].
  split; [exact Hs |].
  destruct (Article_init_extends_articles three_and_one 0 1 "Lamps"
              wf_three_and_one Ha Hm Hs) as (new & st' & Hinit & _ & _ & Hmag & _).
  exists new, st'. split; [exact Hinit | exact Hmag].
Defined.

(** X8: [author.add_article(magazine, title)] never fails for the author
    argument: it raises the validation error, with nothing changed, exactly
    when [magazine] is not a Magazine or [title] is not a string of 5 to 50
    characters.  Otherwise it returns a new registered article whose author
    is [author], and that article is the last one of
    [author.articles()]. *)
Theorem add_article_spec st self magazine title :
  wf st → self < length (authors st) → live st magazine →
  ((∃ e, (Author.add_article self magazine title st).1 = Raise e) ↔
     isinstance_Magazine magazine = false ∨ title_ok title = false) ∧
  (∀ e, (Author.add_article self magazine title st).1 = Raise e →
     (∃ msg, e = Exception msg) ∧
     (Author.add_article self magazine title st).2 = st) ∧
  (∀ new, (Author.add_article self magazine title st).1 = Ok new →
     let st' := (Author.add_article self magazine title st).2 in
     wf st' ∧
     Article_all st' = Article_all st ++ [new] ∧
     Article.author new st' = Ok (VAuthor self) ∧
     Article.magazine new st' = Ok magazine ∧
     Article.title new st' = Ok title ∧
     Author.articles self st' = Ok (articles_by st self ++ [new])).
Proof.
  intros Hwf Hself Hmag. unfold Author.add_article.
  pose proof (wf_Article_init st (VAuthor self) magazine title Hwf Hself Hmag)
    as Hwf'.
  destruct (Article_args_ok (VAuthor self) magazine title) eqn:E.
  - rewrite Article_init_success in * by exact E. cbn [fst snd] in *.
    unfold Article_args_ok in E. cbn in E.
    apply andb_true_iff in E as [Em Et].
    split; [| split].
    + split; [intros [e [=]] | intros [H | H]; congruence].
    + intros e [=].
    + intros new [= <-]. cbv zeta. split; [exact Hwf' |].
      split; [reflexivity |].
      unfold Article.author, Article.magazine, Article.title, get_Article.
      rewrite lookup_with_Article.
      destruct (decide (length (articles st) = length (articles st)));
        [| contradiction].
      repeat split.
      rewrite Author_articles_ok by exact Hwf'.
      rewrite articles_by_with_Article by exact Hwf. cbn [art_author].
      by rewrite decide_True.
  - destruct (Article_init_failure _ _ _ st E) as [msg Hmsg].
    rewrite Hmsg in *. cbn [fst snd] in *.
    unfold Article_args_ok in E. cbn in E.
    split; [| split].
    + split; [intros _ | eauto].
      by apply andb_false_iff in E.
    + intros e [= <-]. eauto.
    + intros new [=].
Qed.

Lemma add_article_spec_witness :
  wf newsstand ∧ 0 < length (authors newsstand) ∧
  live newsstand (VMagazine 1) ∧
  ∃ new, (Author.add_article 0 (VMagazine 1) (VStr "Chairs") newsstand).1
           = Ok new ∧
         Author.articles 0
           (Author.add_article 0 (VMagazine 1) (VStr "Chairs") newsstand).2
           = Ok [new].
Proof.
  assert (Ha : 0 < length (authors newsstand)) by (vm_compute; lia).
  assert (Hm : live newsstand (VMagazine 1)) by (vm_compute; lia).
  split; [apply wf_newsstand |]. split; [exact Ha |]. split; [exact Hm |].
  exists 0. split; [reflexivity |].
  exact (proj2 (proj2 (proj2 (proj2 (proj2 (proj2 (proj2
    (add_article_spec newsstand 0 (VMagazine 1) (VStr "Chairs")
       wf_newsstand Ha Hm)) 0 eq_refl)))))).
Defined.

(** ** The titles of a magazine *)

Lemma omap_attr_lookup (get : ArticleObj → value) st l :
  Forall (λ r, r < length (articles st)) l →
  length (omap (λ r, get <$> articles st !! r) l) = length l ∧
  ∀ i r, l !! i = Some r →
    ∃ o, articles st !! r = Some o ∧
         omap (λ r, get <$> articles st !! r) l !! i = Some (get o).
Proof.
  induction 1 as [| r l Hr _ [IHlen IH]]; [split; [reflexivity | intros ? ? [=]] |].
  destruct (lookup_lt_is_Some_2 _ _ Hr) as [o Ho].
  cbn. rewrite Ho. cbn. split; [by rewrite IHlen |].
  intros [| i] r'; cbn.
  - intros [= <-]. eauto.
  - apply IH.
Qed.

(** X9: [magazine.article_titles()] returns [None] exactly when the
    magazine has no registered article; otherwise it returns one title per
    article of [magazine.articles()], in the same order, each of them the
    title of that article, a string of 5 to 50 characters. *)
Theorem article_titles_spec st self :
  wf st →
  ∃ arts res,
    Magazine.articles self st = Ok arts ∧
    Magazine.article_titles self st = Ok res ∧
    (res = None ↔ arts = []) ∧
    (∀ ts, res = Some ts →
       length ts = length arts ∧
       ∀ i r, arts !! i = Some r →
         ∃ t, ts !! i = Some (VStr t) ∧ Article.title r st = Ok (VStr t) ∧
              5 ≤ String.length t ≤ 50).
Proof.
  intros Hwf. exists (articles_in st self).
  pose proof (articles_in_live st self Hwf) as Hlive.
  unfold Magazine.article_titles. rewrite Magazine_articles_ok by exact Hwf.
  cbn. destruct (articles_in st self) as [| r0 l0] eqn:E.
  - exists None. repeat split; discriminate.
  - rewrite <- E in *. unfold Article.title at 1.
    rewrite py_map_attr by exact Hlive. cbn.
    eexists. split; [reflexivity |]. split; [reflexivity |].
    split; [split; [discriminate | rewrite E; discriminate] |].
    intros ts [= <-].
    destruct (omap_attr_lookup art_title st _ Hlive) as [Hlen Hnth].
    split; [exact Hlen |]. intros i r Hr.
    destruct (Hnth i r Hr) as (o & Ho & Hi).
    destruct Hwf as (_ & _ & Ha & _).
    destruct (Forall_lookup_1 _ _ _ _ Ha Ho) as (_ & _ & Ht).
    destruct (art_title o) as [| |t| | |] eqn:Et; try contradiction.
    exists t. split; [exact Hi |]. split; [| exact Ht].
    unfold Article.title, get_Article. rewrite Ho. cbn. by rewrite Et.
Qed.

Lemma article_titles_spec_witness :
  wf three_and_one ∧
  Magazine.article_titles 0 three_and_one =
    Ok (Some [VStr "Gloves"; VStr "Shoes"; VStr "Coats"]) ∧
  ∃ arts res, Magazine.articles 0 three_and_one = Ok arts ∧
    Magazine.article_titles 0 three_and_one = Ok res ∧
    (res = None ↔ arts = []).
Proof.
  split; [apply wf_three_and_one |]. split; [reflexivity |].
  destruct (article_titles_spec three_and_one 0 wf_three_and_one)
    as (arts & res & Harts & Hres & Hnone & _).
  exists arts, res. auto.
Defined.

(** ** Magazines of an author and contributors of a magazine *)

Lemma authors_in_Author st self v :
  wf st → v ∈ authors_in st self →
  ∃ a, v = VAuthor a ∧ a < length (authors st).
Proof.
  intros Hwf (r & _ & Hr)%list_elem_of_omap. unfold author_of in Hr.
  destruct (articles st !! r) as [o |] eqn:Ho; [| discriminate].
  injection Hr as <-.
  destruct Hwf as (_ & _ & Ha & _).
  destruct (Forall_lookup_1 _ _ _ _ Ha Ho) as (Hau & _).
  destruct (art_author o); try contradiction. eauto.
Qed.

Lemma Author_magazines_ok `{SetOrder} st self :
  wf st →
  Author.magazines self st =
    Ok (list_set (omap (magazine_of st) (articles_by st self))).
Proof.
  intros Hwf. unfold Author.magazines.
  rewrite Author_articles_ok by exact Hwf. cbn.
  unfold Article.magazine.
  rewrite py_map_attr by (by apply articles_by_live). reflexivity.
Qed.

Lemma Magazine_contributors_ok `{SetOrder} st self :
  wf st →
  Magazine.contributors self st = Ok (list_set (authors_in st self)).
Proof.
  intros Hwf. unfold Magazine.contributors.
  rewrite Magazine_articles_ok by exact Hwf. cbn.
  unfold Article.author.
  rewrite py_map_attr by (by apply articles_in_live). reflexivity.
Qed.

(** X10: [author.magazines()] returns a list without repetition that holds
    exactly the magazines of the author's registered articles, all of them
    existing Magazines; for an author without articles it is the empty
    list, not [None]. *)
Theorem Author_magazines_spec `{SetOrder} st self :
  wf st →
  ∃ l, Author.magazines self st = Ok l ∧ NoDup l ∧
    (∀ v, v ∈ l ↔ ∃ r, r ∈ articles_by st self ∧ magazine_of st r = Some v) ∧
    (∀ v, v ∈ l → ∃ m, v = VMagazine m ∧ m < length (magazines st)) ∧
    (articles_by st self = [] → l = []).
Proof.
  intros Hwf. eexists. split; [by apply Author_magazines_ok |].
  assert (Helem : ∀ v,
    v ∈ list_set (omap (magazine_of st) (articles_by st self)) ↔
    ∃ r, r ∈ articles_by st self ∧ magazine_of st r = Some v).
  { intros v. rewrite list_set_perm, elem_of_remove_dups.
    apply list_elem_of_omap. }
  split; [rewrite list_set_perm; apply NoDup_remove_dups |].
  split; [exact Helem |]. split.
  - intros v (r & [_ Hr]%list_elem_of_filter & Hm)%Helem.
    apply (magazines_in_Magazine st v Hwf).
    apply list_elem_of_omap. eauto.
  - intros ->. cbn. apply Permutation_nil_r. by rewrite list_set_perm.
Qed.

Lemma Author_magazines_spec_witness :
  wf three_and_one ∧
  ∃ l, @Author.magazines remove_dups_order 0 three_and_one = Ok l ∧
       VMagazine 0 ∈ l ∧ VMagazine 1 ∈ l.
Proof.
  split; [apply wf_three_and_one |].
  destruct (@Author_magazines_spec remove_dups_order three_and_one 0
              wf_three_and_one) as (l & Hl & _ & Helem & _).
  exists l. split; [exact Hl |]. split; apply Helem.
  - exists 0. split; [vm_compute; repeat constructor | reflexivity].
  - exists 3. split; [vm_compute; repeat constructor | reflexivity].
Defined.

(** X11: [magazine.contributors()] returns a list without repetition that
    holds exactly the authors of the magazine's registered articles, all of
    them existing Authors; for a magazine without articles it is the empty
    list, not [None]. *)
Theorem Magazine_contributors_spec `{SetOrder} st self :
  wf st →
  ∃ l, Magazine.contributors self st = Ok l ∧ NoDup l ∧
    (∀ v, v ∈ l ↔ ∃ r, r ∈ articles_in st self ∧ author_of st r = Some v) ∧
    (∀ v, v ∈ l → ∃ a, v = VAuthor a ∧ a < length (authors st)) ∧
    (articles_in st self = [] → l = []).
Proof.
  intros Hwf. eexists. split; [by apply Magazine_contributors_ok |].
  assert (Helem : ∀ v,
    v ∈ list_set (authors_in st self) ↔
    ∃ r, r ∈ articles_in st self ∧ author_of st r = Some v).
  { intros v. rewrite list_set_perm, elem_of_remove_dups.
    apply list_elem_of_omap. }
  split; [rewrite list_set_perm; apply NoDup_remove_dups |].
  split; [exact Helem |]. split.
  - intros v Hv. apply (authors_in_Author st self v Hwf).
    by rewrite list_set_perm, elem_of_remove_dups in Hv.
  - unfold authors_in. intros ->. cbn.
    apply Permutation_nil_r. by rewrite list_set_perm.
Qed.

Lemma Magazine_contributors_spec_witness :
  wf three_and_one ∧
  ∃ l, @Magazine.contributors remove_dups_order 0 three_and_one = Ok l ∧
       VAuthor 0 ∈ l.
Proof.
  split; [apply wf_three_and_one |].
  destruct (@Magazine_contributors_spec remove_dups_order three_and_one 0
              wf_three_and_one) as (l & Hl & _ & Helem & _).
  exists l. split; [exact Hl |]. apply Helem.
  exists 0. split; [vm_compute; repeat constructor | reflexivity].
Defined.

(** X12: the two sides of the relation agree: a magazine is in
    [author.magazines()] exactly when the author is in
    [magazine.contributors()]. *)
Theorem magazines_and_contributors_agree `{SetOrder} st a m :
  wf st →
  ∃ ms cs, Author.magazines a st = Ok ms ∧ Magazine.contributors m st = Ok cs ∧
    (VMagazine m ∈ ms ↔ VAuthor a ∈ cs).
Proof.
  intros Hwf. eexists _, _.
  split; [by apply Author_magazines_ok |].
  split; [by apply Magazine_contributors_ok |].
  rewrite !list_set_perm, !elem_of_remove_dups.
  unfold authors_in. rewrite !list_elem_of_omap.
  unfold articles_by, articles_in.
  split; intros (r & [Hr Hin]%list_elem_of_filter & Hr');
    exists r; (split; [apply list_elem_of_filter |]); auto.
Qed.

Lemma magazines_and_contributors_agree_witness :
  wf three_and_one ∧
  ∃ ms cs,
    @Author.magazines remove_dups_order 0 three_and_one = Ok ms ∧
    @Magazine.contributors remove_dups_order 1 three_and_one = Ok cs ∧
    (VMagazine 1 ∈ ms ↔ VAuthor 0 ∈ cs).
Proof.
  split; [apply wf_three_and_one |].
  exact (@magazines_and_contributors_agree remove_dups_order three_and_one 0 1
           wf_three_and_one).
Defined.

(** X13: every author that [magazine.contributing_authors()] returns is an
    existing Author and is one of [magazine.contributors()]; when the
    magazine has fewer than 3 articles the result is [None]. *)
Theorem contributing_authors_are_contributors `{SetOrder} st self :
  wf st →
  ∃ arts cs res,
    Magazine.articles self st = Ok arts ∧
    Magazine.contributors self st = Ok cs ∧
    Magazine.contributing_authors self st = Ok res ∧
    (∀ l v, res = Some l → v ∈ l →
       v ∈ cs ∧ ∃ a, v = VAuthor a ∧ a < length (authors st)) ∧
    (length arts < 3 → res = None).
Proof.
  intros Hwf. eexists _, _, _.
  split; [by apply Magazine_articles_ok |].
  split; [by apply Magazine_contributors_ok |].
  split; [by apply contributing_authors_ok |]. cbv zeta.
  pose proof (frequent_keys_elem (authors_in st self)) as Helem.
  assert (Hin : ∀ v, 2 < occurrences v (authors_in st self) →
                     v ∈ authors_in st self).
  { intros v Hv. apply occurrences_pos. lia. }
  destruct ((filter (λ item : value * nat, 2 < item.2)
               (count_keys (authors_in st self))).*1) as [| x l0] eqn:E.
  - split; [intros l v [=] | reflexivity].
  - split.
    + intros l v [= <-] Hv. apply Helem, Hin in Hv. split.
      * by rewrite list_set_perm, elem_of_remove_dups.
      * by apply (authors_in_Author st self).
    + intros Hlen. exfalso.
      assert (Hx : 2 < occurrences x (authors_in st self)) by (apply Helem; left).
      pose proof (length_filter (λ y, y = x) (authors_in st self)) as H1.
      pose proof (articles_in_live st self Hwf) as Hlive.
      destruct (omap_attr_lookup art_author st _ Hlive) as [H2 _].
      unfold occurrences in Hx. unfold authors_in, author_of in *. lia.
Qed.

Lemma contributing_authors_are_contributors_witness :
  wf three_and_one ∧
  ∃ arts cs res,
    Magazine.articles 1 three_and_one = Ok arts ∧
    @Magazine.contributors remove_dups_order 1 three_and_one = Ok cs ∧
    Magazine.contributing_authors 1 three_and_one = Ok res ∧
    res = None.
Proof.
  split; [apply wf_three_and_one |].
  destruct (@contributing_authors_are_contributors remove_dups_order
              three_and_one 1 wf_three_and_one)
    as (arts & cs & res & Harts & Hcs & Hres & _ & Hfew).
  exists arts, cs, res. repeat split; try assumption.
  apply Hfew. vm_compute in Harts. injection Harts as <-. simpl. lia.
Defined.

(** ** The top publisher and [articles()] *)

Lemma occurrences_magazines_in st m :
  occurrences (VMagazine m) (magazines_in st) = length (articles_in st m).
Proof.
  unfold occurrences, magazines_in, articles_in.
  induction (Article_all st) as [| r l IH]; [reflexivity |].
  rewrite filter_cons. cbn [omap list_omap].
  destruct (magazine_of st r) as [v |] eqn:Ev.
  - rewrite filter_cons.
    destruct (decide (v = VMagazine m)) as [-> | Hne].
    + rewrite decide_True by reflexivity. cbn. by rewrite IH.
    + rewrite decide_False by congruence. exact IH.
  - rewrite decide_False by discriminate. exact IH.
Qed.

(** X14: on a non-empty registry the magazine that
    [Magazine.top_publisher()] returns has at least one article, and no
    magazine has a longer [articles()] list. *)
Theorem top_publisher_has_most_articles st :
  wf st → Article_all st ≠ [] →
  ∃ m arts,
    Magazine.top_publisher st = Ok (Some (VMagazine m)) ∧
    Magazine.articles m st = Ok arts ∧ arts ≠ [] ∧
    ∀ m' arts', Magazine.articles m' st = Ok arts' →
      length arts' ≤ length arts.
Proof.
  intros Hwf Hne.
  assert (Hmags : magazines_in st ≠ []) by (by rewrite magazines_in_nil).
  destruct (top_of_spec _ Hmags) as (v & i & Htop & Hi & Hmax & _).
  assert (Hv : v ∈ magazines_in st) by (apply index_of_elem; eauto).
  destruct (magazines_in_Magazine st v Hwf Hv) as (m & -> & Hm).
  exists m, (articles_in st m).
  split; [by rewrite top_publisher_ok |].
  split; [by apply Magazine_articles_ok |]. split.
  - apply occurrences_pos in Hv. rewrite occurrences_magazines_in in Hv.
    intros E. rewrite E in Hv. simpl in Hv. lia.
  - intros m' arts'. rewrite Magazine_articles_ok by exact Hwf.
    intros [= <-]. rewrite <- !occurrences_magazines_in. apply Hmax.
Qed.

Lemma top_publisher_has_most_articles_witness :
  wf three_and_one ∧ Article_all three_and_one ≠ [] ∧
  ∃ m arts,
    Magazine.top_publisher three_and_one = Ok (Some (VMagazine m)) ∧
    Magazine.articles m three_and_one = Ok arts ∧ arts ≠ [].
Proof.
  assert (Hne : Article_all three_and_one ≠ []) by (vm_compute; discriminate).
  split; [apply wf_three_and_one |]. split; [exact Hne |].
  destruct (top_publisher_has_most_articles three_and_one wf_three_and_one Hne)
    as (m & arts & Htop & Harts & Hnil & _).
  exists m, arts. auto.
Defined.

(** ** What the guards keep true of the stored attributes *)

(** X15: in every state that a client program can produce, the author of
    every article is an existing Author, its magazine an existing Magazine
    and its title a string of 5 to 50 characters, and the name of every
    author is a non-empty string. *)
Theorem stored_attributes_are_valid st :
  reachable st →
  (∀ r o, articles st !! r = Some o →
     ∃ a m t,
       art_author o = VAuthor a ∧ a < length (authors st) ∧
       art_magazine o = VMagazine m ∧ m < length (magazines st) ∧
       art_title o = VStr t ∧ 5 ≤ String.length t ≤ 50) ∧
  (∀ r o, authors st !! r = Some o →
     ∃ n, auth_name o = VStr n ∧ 0 < String.length n).
Proof.
  intros Hreach. destruct (reachable_wf st Hreach) as (_ & _ & Ha & _ & Hau).
  split.
  - intros r o Ho.
    destruct (Forall_lookup_1 _ _ _ _ Ha Ho) as (H1 & H2 & H3).
    destruct (art_author o) as [| | |a| |]; try contradiction.
    destruct (art_magazine o) as [| | | |m|]; try contradiction.
    destruct (art_title o) as [| |t| | |]; try contradiction.
    exists a, m, t. destruct H3. repeat split; assumption.
  - intros r o Ho. pose proof (Forall_lookup_1 _ _ _ _ Hau Ho) as H1.
    unfold Author_valid in H1.
    destruct (auth_name o) as [| |n| | |]; try contradiction. eauto.
Qed.

Lemma stored_attributes_are_valid_witness :
  reachable three_and_one ∧
  ∃ a m t,
    VAuthor 0 = VAuthor a ∧ a < length (authors three_and_one) ∧
    VMagazine 1 = VMagazine m ∧ m < length (magazines three_and_one) ∧
    VStr "Chairs" = VStr t ∧ 5 ≤ String.length t ≤ 50.
Proof.
  split; [apply reachable_three_and_one |].
  exact (proj1 (stored_attributes_are_valid three_and_one
                  reachable_three_and_one) 3 _ eq_refl).
Defined.

(** ** New instances *)

Lemma articles_in_fresh st self :
  wf st → length (magazines st) ≤ self → articles_in st self = [].
Proof.
  intros Hwf Hge. unfold articles_in.
  destruct (filter _ (Article_all st)) as [| r l] eqn:E; [reflexivity |].
  exfalso.
  assert (Hr : r ∈ filter (λ r, magazine_of st r = Some (VMagazine self))
                 (Article_all st)) by (rewrite E; left).
  apply list_elem_of_filter in Hr as [Hm Hr].
  assert (Hin : VMagazine self ∈ magazines_in st).
  { apply list_elem_of_omap. eauto. }
  destruct (magazines_in_Magazine st _ Hwf Hin) as (m & [= <-] & Hlt). lia.
Qed.

Lemma articles_by_fresh st self :
  wf st → length (authors st) ≤ self → articles_by st self = [].
Proof.
  intros Hwf Hge. unfold articles_by.
  destruct (filter _ (Article_all st)) as [| r l] eqn:E; [reflexivity |].
  exfalso.
  assert (Hr : r ∈ filter (λ r, author_of st r = Some (VAuthor self))
                 (Article_all st)) by (rewrite E; left).
  apply list_elem_of_filter in Hr as [Ha Hr].
  unfold author_of in Ha.
  destruct (articles st !! r) as [o |] eqn:Ho; [| discriminate].
  injection Ha as Ha.
  destruct Hwf as (_ & _ & Hv & _).
  destruct (Forall_lookup_1 _ _ _ _ Hv Ho) as (H1 & _).
  rewrite Ha in H1. lia.
Qed.

(** X16: a successful [Magazine(name, category)] appends the new magazine,
    and nothing else, to [Magazine.all]; the new magazine reads back its
    name and category, has no articles, no titles and no contributing
    authors, and [Article.all], the [articles()] of the other magazines
    and the top publisher are what they were. *)
Theorem new_magazine_is_empty st n c :
  wf st → 2 ≤ String.length n ≤ 16 → 0 < String.length c →
  ∃ self st',
    Magazine.__init__ (VStr n) (VStr c) st = (Ok self, st') ∧ wf st' ∧
    Magazine_all st' = Magazine_all st ++ [self] ∧
    (self ∉ Magazine_all st) ∧
    Magazine.name self st' = Ok (VStr n) ∧
    Magazine.category self st' = Ok (VStr c) ∧
    Magazine.articles self st' = Ok [] ∧
    Magazine.article_titles self st' = Ok None ∧
    Magazine.contributing_authors self st' = Ok None ∧
    Article_all st' = Article_all st ∧
    (∀ m, Magazine.articles m st' = Magazine.articles m st) ∧
    Magazine.top_publisher st' = Magazine.top_publisher st.
Proof.
  intros Hwf Hn Hc.
  assert (Hok : Magazine_args_ok (VStr n) (VStr c) = true).
  { apply Magazine_args_valid. split; assumption. }
  pose proof (wf_Magazine_init st (VStr n) (VStr c) Hwf) as Hwf'.
  rewrite Magazine_init_success in * by exact Hok. cbn [snd] in Hwf'.
  set (o := {| mag_name := VStr n; mag_category := VStr c |}) in *.
  assert (Hnew : magazines (with_Magazine st o) !! length (magazines st) = Some o).
  { simpl. apply list_lookup_middle. reflexivity. }
  assert (Hsame : ∀ m, articles_in (with_Magazine st o) m = articles_in st m)
    by reflexivity.
  assert (Hempty : articles_in (with_Magazine st o) (length (magazines st)) = []).
  { rewrite Hsame. by apply articles_in_fresh. }
  eexists _, _. split; [reflexivity |]. split; [exact Hwf' |].
  split; [reflexivity |]. split.
  { intros Hin. destruct Hwf as (_ & Hm & _).
    eapply Forall_forall in Hm; [| exact Hin]. simpl in Hm. lia. }
  unfold Magazine.name, Magazine.category, get_Magazine. rewrite Hnew.
  split; [reflexivity |]. split; [reflexivity |].
  split; [by rewrite Magazine_articles_ok, Hempty |].
  split.
  { unfold Magazine.article_titles.
    by rewrite Magazine_articles_ok, Hempty. }
  split.
  { rewrite contributing_authors_ok by exact Hwf'.
    unfold authors_in. by rewrite Hempty. }
  split; [reflexivity |]. split.
  - intros m. by rewrite !Magazine_articles_ok, Hsame.
  - by rewrite !top_publisher_ok.
Qed.

Lemma new_magazine_is_empty_witness :
  wf three_and_one ∧ 2 ≤ String.length "Elle" ≤ 16 ∧
  0 < String.length "Fashion" ∧
  ∃ self st',
    Magazine.__init__ (VStr "Elle") (VStr "Fashion") three_and_one
      = (Ok self, st') ∧
    Magazine.articles self st' = Ok [] ∧
    Magazine.top_publisher st' = Ok (Some (VMagazine 0)).
Proof.
  assert (Hn : 2 ≤ String.length "Elle" ≤ 16) by (vm_compute; lia).
  assert (Hc : 0 < String.length "Fashion") by (vm_compute; lia).
  split; [apply wf_three_and_one |]. split; [exact Hn |]. split; [exact Hc |].
  destruct (new_magazine_is_empty three_and_one "Elle" "Fashion"
              wf_three_and_one Hn Hc)
    as (self & st' & Hinit & _ & _ & _ & _ & _ & Harts & _ & _ & _ & _ & Htop).
  exists self, st'. split; [exact Hinit |]. split; [exact Harts |].
  rewrite Htop. reflexivity.
Defined.

Lemma topic_areas_ok `{SetOrder} st self :
  wf st →
  Author.topic_areas self st =
    Ok (if articles_by st self is [] then None
        else Some (list_set (omap (category_at st) (articles_by st self)))).
Proof.
  intros Hwf. unfold Author.topic_areas.
  rewrite Author_articles_ok by exact Hwf. cbn.
  pose proof (articles_by_live st self Hwf) as Hlive.
  destruct (articles_by st self) as [| r l] eqn:E; [reflexivity |].
  by rewrite py_map_category.
Qed.

(** X17: a successful [Author(name)] returns an author that reads back its
    name and has no articles: [articles()] and [magazines()] are empty
    lists and [topic_areas()] is [None]; both registries and the
    [articles()] of the other authors are what they were. *)
Theorem new_author_has_no_articles `{SetOrder} st n :
  wf st → 0 < String.length n →
  ∃ self st',
    Author.__init__ (VStr n) st = (Ok self, st') ∧ wf st' ∧
    Author.name self st' = Ok (VStr n) ∧
    Author.articles self st' = Ok [] ∧
    Author.magazines self st' = Ok [] ∧
    Author.topic_areas self st' = Ok None ∧
    Article_all st' = Article_all st ∧ Magazine_all st' = Magazine_all st ∧
    (∀ a, Author.articles a st' = Author.articles a st).
Proof.
  intros Hwf Hn.
  assert (Hok : Author_args_ok (VStr n) = true).
  { apply Author_args_valid. exact Hn. }
  pose proof (wf_Author_init st (VStr n) Hwf) as Hwf'.
  rewrite Author_init_success in * by exact Hok. cbn [snd] in Hwf'.
  set (o := {| auth_name := VStr n |}) in *.
  assert (Hsame : ∀ a, articles_by (with_Author st o) a = articles_by st a)
    by reflexivity.
  assert (Hempty : articles_by (with_Author st o) (length (authors st)) = []).
  { rewrite Hsame. by apply articles_by_fresh. }
  eexists _, _. split; [reflexivity |]. split; [exact Hwf' |].
  split.
  { unfold Author.name, get_Author. simpl.
    by rewrite list_lookup_middle. }
  split; [by rewrite Author_articles_ok, Hempty |].
  split.
  { rewrite Author_magazines_ok, Hempty by exact Hwf'. cbn. f_equal.
    apply Permutation_nil_r. by rewrite list_set_perm. }
  split; [by rewrite topic_areas_ok, Hempty |].
  split; [reflexivity |]. split; [reflexivity |].
  intros a. by rewrite !Author_articles_ok, Hsame.
Qed.

Lemma new_author_has_no_articles_witness :
  wf three_and_one ∧ 0 < String.length "Bob" ∧
  ∃ self st',
    Author.__init__ (VStr "Bob") three_and_one = (Ok self, st') ∧
    @Author.topic_areas remove_dups_order self st' = Ok None ∧
    Author.articles 0 st' = Ok [0; 1; 2; 3].
Proof.
  assert (Hn : 0 < String.length "Bob") by (vm_compute; lia).
  split; [apply wf_three_and_one |]. split; [exact Hn |].
  destruct (@new_author_has_no_articles remove_dups_order three_and_one "Bob"
              wf_three_and_one Hn)
    as (self & st' & Hinit & _ & _ & _ & _ & Htopic & _ & _ & Hsame).
  exists self, st'. split; [exact Hinit |]. split; [exact Htopic |].
  rewrite Hsame. reflexivity.
Defined.

(** ** A magazine shared by its articles *)

Lemma set_category_state st self o v :
  magazines st !! self = Some o → Magazine.category_ok v = true →
  Magazine.set_category self v st =
    (Ok tt,
     set_Magazine st self {| mag_name := mag_name o; mag_category := v |}).
Proof.
  intros Ho Hv. unfold Magazine.set_category, update_Magazine.
  rewrite Hv, Ho. reflexivity.
Qed.

(** X18: an assignment of a non-empty string to [magazine.category] is
    seen through every article of the magazine: the new category is in
    [topic_areas()] of each author with an article in it, while the
    [articles()] of all authors and magazines and the top publisher are
    what they were. *)
Theorem category_assignment_reaches_topic_areas `{SetOrder} st m c a r :
  wf st → 0 < String.length c →
  r ∈ articles_by st a → magazine_of st r = Some (VMagazine m) →
  ∃ st' l,
    Magazine.set_category m (VStr c) st = (Ok tt, st') ∧ wf st' ∧
    Author.topic_areas a st' = Ok (Some l) ∧ VStr c ∈ l ∧
    (∀ a', Author.articles a' st' = Author.articles a' st) ∧
    (∀ m', Magazine.articles m' st' = Magazine.articles m' st) ∧
    Magazine.top_publisher st' = Magazine.top_publisher st.
Proof.
  intros Hwf Hc Hr Hmag.
  assert (Hm : m < length (magazines st)).
  { apply list_elem_of_filter in Hr as [_ Hr].
    assert (Hin : VMagazine m ∈ magazines_in st)
      by (apply list_elem_of_omap; eauto).
    by destruct (magazines_in_Magazine st _ Hwf Hin) as (m' & [= <-] & Hlt). }
  destruct (lookup_lt_is_Some_2 _ _ Hm) as [o Ho].
  assert (Hok : Magazine.category_ok (VStr c) = true)
    by (apply category_ok_spec; eauto).
  pose proof (wf_set_category st m (VStr c) Hwf) as Hwf'.
  rewrite (set_category_state st m o (VStr c) Ho Hok) in *. cbn [snd] in Hwf'.
  set (st' := set_Magazine st m
                {| mag_name := mag_name o; mag_category := VStr c |}) in *.
  assert (Hby : ∀ a', articles_by st' a' = articles_by st a') by reflexivity.
  assert (Hcat : category_at st' r = Some (VStr c)).
  { unfold category_at.
    change (magazine_of st' r) with (magazine_of st r). rewrite Hmag.
    subst st'. simpl. by rewrite list_lookup_insert_eq. }
  exists st'. eexists. split; [reflexivity |]. split; [exact Hwf' |].
  rewrite topic_areas_ok by exact Hwf'. rewrite Hby.
  destruct (articles_by st a) as [| r0 l0] eqn:E;
    [by apply elem_of_nil in Hr |].
  rewrite <- E in *. split; [reflexivity |]. split.
  - rewrite list_set_perm, elem_of_remove_dups.
    apply list_elem_of_omap. eauto.
  - split; [| split].
    + intros a'. by rewrite !Author_articles_ok.
    + intros m'. by rewrite !Magazine_articles_ok.
    + by rewrite !top_publisher_ok.
Qed.

Lemma category_assignment_reaches_topic_areas_witness :
  wf three_and_one ∧ 0 < String.length "Style" ∧
  3 ∈ articles_by three_and_one 0 ∧
  magazine_of three_and_one 3 = Some (VMagazine 1) ∧
  ∃ st' l,
    Magazine.set_category 1 (VStr "Style") three_and_one = (Ok tt, st') ∧
    @Author.topic_areas remove_dups_order 0 st' = Ok (Some l) ∧
    VStr "Style" ∈ l.
Proof.
  assert (Hc : 0 < String.length "Style") by (vm_compute; lia).
  assert (Hr : 3 ∈ articles_by three_and_one 0)
    by (vm_compute; repeat constructor).
  split; [apply wf_three_and_one |]. split; [exact Hc |]. split; [exact Hr |].
  split; [reflexivity |].
  destruct (@category_assignment_reaches_topic_areas remove_dups_order
              three_and_one 1 "Style" 0 3 wf_three_and_one Hc Hr eq_refl)
    as (st' & l & Hset & _ & Htopic & Hin & _).
  exists st', l. auto.
Defined.

(** ** [articles()] and the registry *)

Lemma reachable_registered st : reachable st → registered st.
Proof.
  induction 1 as [| st c _ IH _]; [split; reflexivity |].
  eapply effect_registered; [apply exec_effect | exact IH].
Qed.

(** X19: in every state that a client program can produce, each
    [articles()] list of an author or of a magazine is a selection from
    [Article.all] in registry order without repetition, and every article
    that was constructed is in the [articles()] of exactly one author, its
    author, and of exactly one magazine, its magazine. *)
Theorem articles_partition_the_registry st r :
  reachable st → r < length (articles st) →
  ∃ a m,
    Article.author r st = Ok (VAuthor a) ∧
    Article.magazine r st = Ok (VMagazine m) ∧
    (∀ a' l, Author.articles a' st = Ok l →
       NoDup l ∧ l `sublist_of` Article_all st ∧ (r ∈ l ↔ a' = a)) ∧
    (∀ m' l, Magazine.articles m' st = Ok l →
       NoDup l ∧ l `sublist_of` Article_all st ∧ (r ∈ l ↔ m' = m)).
Proof.
  intros Hreach Hr. pose proof (reachable_wf st Hreach) as Hwf.
  destruct (reachable_registered st Hreach) as [Hall _].
  assert (Hnd : NoDup (Article_all st)) by (rewrite Hall; apply NoDup_seq).
  assert (Hin : r ∈ Article_all st) by (rewrite Hall, elem_of_seq; lia).
  destruct (lookup_lt_is_Some_2 _ _ Hr) as [o Ho].
  destruct Hwf as (H1 & H2 & Ha & H4 & H5).
  destruct (Forall_lookup_1 _ _ _ _ Ha Ho) as (Hau & Hma & _).
  assert (Hwf : wf st) by (repeat split; assumption).
  destruct (art_author o) as [| | |a| |] eqn:Ea; try contradiction.
  destruct (art_magazine o) as [| | | |m|] eqn:Em; try contradiction.
  exists a, m.
  unfold Article.author, Article.magazine, get_Article. rewrite Ho. cbn.
  rewrite Ea, Em. split; [reflexivity |]. split; [reflexivity |]. split.
  - intros a' l. rewrite Author_articles_ok by exact Hwf. intros [= <-].
    split; [by apply NoDup_filter |]. split; [apply sublist_filter |].
    unfold articles_by. rewrite list_elem_of_filter. unfold author_of.
    rewrite Ho. cbn. rewrite Ea.
    split; [intros [[= ->] _]; reflexivity | intros ->; auto].
  - intros m' l. rewrite Magazine_articles_ok by exact Hwf. intros [= <-].
    split; [by apply NoDup_filter |]. split; [apply sublist_filter |].
    unfold articles_in. rewrite list_elem_of_filter. unfold magazine_of.
    rewrite Ho. cbn. rewrite Em.
    split; [intros [[= ->] _]; reflexivity | intros ->; auto].
Qed.

Lemma articles_partition_the_registry_witness :
  reachable three_and_one ∧ 3 < length (articles three_and_one) ∧
  ∃ a m,
    Article.author 3 three_and_one = Ok (VAuthor a) ∧
    Article.magazine 3 three_and_one = Ok (VMagazine m).
Proof.
  assert (Hr : 3 < length (articles three_and_one)) by (vm_compute; lia).
  split; [apply reachable_three_and_one |]. split; [exact Hr |].
  destruct (articles_partition_the_registry three_and_one 3
              reachable_three_and_one Hr) as (a & m & Ha & Hm & _).
  exists a, m. auto.
Defined.
